(** * Schema diff and SQL migration rendering (scripts/run.py)

    A shallow embedding of the diff engine, the column renderer, the four
    dialect emitters and the report assembler of [scripts/run.py], with the
    properties of the specification proved about them.

    Modelling conventions.
    - A Python [dict] with string keys is a [gmap string _]; [d[k]] is the
      lookup [d !! k], which is [None] where Python raises [KeyError].
    - A function that can raise returns an [option]; [None] stands for the
      exception and the option monad threads it through the callers.
    - A Python [str] is a [string] of bytes (the UTF-8 encoding): byte-wise
      lexicographic order is code point order, and [upper] changes only the
      ASCII letters, which is all that the test against ["CURRENT_"] can see.
    - Attribute values of a column are the JSON scalars of the data model
      (null, booleans, integers, strings).  JSON floats and nested values
      as attributes are outside the model.
    - A [for] loop appending to [ops] is a left fold threading the list. *)

From Stdlib Require Import ZArith Ascii String List.
From stdpp Require Import base option list sorting gmap strings pretty fin_maps.

Local Open Scope string_scope.
Local Open Scope list_scope.

(** ** Python values *)

Inductive Scalar : Type :=
| SNull
| SBool (b : bool)
| SInt (z : Z)
| SStr (s : string).

Global Instance Scalar_eq_dec : EqDecision Scalar.
Proof. solve_decision. Defined.

(** A column definition: a dict from attribute name to scalar. *)
Abbreviation ColDef := (gmap string Scalar).

(** The values a table definition or an operation payload holds: a scalar,
    one column definition, or a mapping of column names to definitions. *)
Inductive Any : Type :=
| AScalar (v : Scalar)
| ACol (c : ColDef)
| ACols (cs : gmap string ColDef).

Global Instance Any_eq_dec : EqDecision Any.
Proof. solve_decision. Defined.

Abbreviation Dict := (gmap string Any).

(** A loaded schema: [schema["tables"]] maps table names to table dicts. *)
Record Schema : Type := { tables : gmap string Dict }.

(** ** Strings *)

Definition nl : string := String "010"%char EmptyString.
Definition dq : string := String "034"%char EmptyString.

(** [sep.join(parts)] *)
Definition join (sep : string) (parts : list string) : string :=
  String.concat sep parts.

(** [s.startswith(p)] *)
Fixpoint startswith (s p : string) : bool :=
  match p, s with
  | EmptyString, _ => true
  | String _ _, EmptyString => false
  | String a p', String b s' => if Ascii.eqb a b then startswith s' p' else false
  end.

Definition upper_ascii (c : ascii) : ascii :=
  let n := nat_of_ascii c in
  if (97 <=? n)%nat && (n <=? 122)%nat then ascii_of_nat (n - 32) else c.

(** [s.upper()] *)
Fixpoint upper (s : string) : string :=
  match s with
  | EmptyString => EmptyString
  | String c s' => String (upper_ascii c) (upper s')
  end.

(** ** Python operators on scalars *)

(** [str(v)], also what an f-string substitutes. *)
Definition str (v : Scalar) : string :=
  match v with
  | SNull => "None"
  | SBool true => "True"
  | SBool false => "False"
  | SInt z => pretty z
  | SStr s => s
  end.

(** f-string substitution of [op.column], which may be [None]. *)
Definition str_opt (c : option string) : string :=
  match c with Some s => s | None => "None" end.

(** Truth value of [v] in a condition. *)
Definition truthy (v : Scalar) : bool :=
  match v with
  | SNull => false
  | SBool b => b
  | SInt z => negb (z =? 0)%Z
  | SStr s => negb (String.eqb s "")
  end.

(** [a == b]: a bool compares equal to the integer 0 or 1. *)
Definition py_eqb (a b : Scalar) : bool :=
  match a, b with
  | SNull, SNull => true
  | SBool x, SBool y => Bool.eqb x y
  | SBool x, SInt z | SInt z, SBool x => (z =? (if x then 1 else 0))%Z
  | SInt x, SInt y => (x =? y)%Z
  | SStr x, SStr y => String.eqb x y
  | _, _ => false
  end.

(** [d.get(k)] and [d.get(k, dflt)] *)
Definition get (d : ColDef) (k : string) : Scalar := default SNull (d !! k).
Definition get_or (d : ColDef) (k : string) (dflt : Scalar) : Scalar :=
  default dflt (d !! k).

(** [v is False] *)
Definition is_False (v : Scalar) : bool :=
  match v with SBool false => true | _ => false end.

(** [a == b] on two column definitions: same length, and every key of [a]
    is in [b] with an equal value. *)
Definition dict_eqb (a b : ColDef) : bool :=
  (size a =? size b)%nat &&
  forallb (λ kv, match b !! kv.1 with
                 | Some w => py_eqb kv.2 w
                 | None => false
                 end) (map_to_list a).

(** ** Sorting *)

Definition str_le (a b : string) : Prop := String.leb a b = true.

Global Instance str_le_dec a b : Decision (str_le a b).
Proof. unfold str_le. apply _. Defined.

(** [sorted(s)] on a set of strings. *)
Definition sorted (s : gset string) : list string :=
  merge_sort str_le (elements s).

(** [sorted(d)] on a dict: its keys in order. *)
Definition sorted_keys {V} (d : gmap string V) : list string := sorted (dom d).

(** ** Control flow *)

(** [for x in xs: body], threading the loop state and stopping at the
    first exception. *)
Fixpoint for_each {A S : Type} (xs : list A) (body : S → A → option S) (s : S)
  : option S :=
  match xs with
  | [] => Some s
  | x :: xs' => s' ← body s x; for_each xs' body s'
  end.

(** ** Operations *)

Record Operation : Type := {
  op_type : string;
  table : string;
  column : option string;
  payload : Dict;
  destructive : bool
}.

Global Instance Operation_eq_dec : EqDecision Operation.
Proof. solve_decision. Defined.

(** [Operation.__init__]: [payload or {}] replaces [None] (and an empty
    dict) by an empty dict. *)
Definition Operation_init (op_type table : string) (column : option string)
    (payload : option Dict) (destructive : bool) : Operation :=
  {| op_type := op_type;
     table := table;
     column := column;
     payload := default ∅ payload;
     destructive := destructive |}.

(** ** Column SQL renderer *)

(** The expression shared by every site that renders a default:
    [f"'{v}'" if isinstance(v, str) and not v.upper().startswith("CURRENT_")
     else str(v)]. *)
Definition default_sql (default_val : Scalar) : string :=
  match default_val with
  | SStr s =>
      if negb (startswith (upper s) "CURRENT_") then "'" +:+ s +:+ "'"
      else str default_val
  | _ => str default_val
  end.

(** ["default" in d and d["default"] is not None], with the value. *)
Definition non_null_default (d : ColDef) : option Scalar :=
  match d !! "default" with
  | Some SNull | None => None
  | Some v => Some v
  end.

Definition column_sql (col_name : string) (col_def : ColDef) (dialect : string)
  : option string :=
  ty ← col_def !! "type";
  let parts := [dq +:+ col_name +:+ dq; str ty] in
  let parts :=
    if truthy (get col_def "primary_key") then parts ++ ["PRIMARY KEY"] else parts in
  let parts :=
    if is_False (get col_def "nullable") then parts ++ ["NOT NULL"] else parts in
  let parts :=
    match non_null_default col_def with
    | Some default_val => parts ++ ["DEFAULT " +:+ default_sql default_val]
    | None => parts
    end in
  let parts :=
    if String.eqb dialect "sqlite" && truthy (get col_def "autoincrement")
    then parts ++ ["AUTOINCREMENT"] else parts in
  Some (join " " parts).

(** ** Diff engine *)

(** [t["columns"]] used as a mapping of column definitions.  A value that
    is not such a mapping is what [load_schema] rejects; here it fails. *)
Definition as_cols (v : Any) : option (gmap string ColDef) :=
  match v with ACols cs => Some cs | _ => None end.

Definition as_col (v : Any) : option ColDef :=
  match v with ACol c => Some c | _ => None end.

Definition columns_of (t : Dict) : option (gmap string ColDef) :=
  t !! "columns" ≫= as_cols.

(** The body of the loop over the columns of both tables. *)
Definition alter_body (table : string) (src_cols tgt_cols : gmap string ColDef)
    (ops : list Operation) (col : string) : option (list Operation) :=
  src_def ← src_cols !! col;
  tgt_def ← tgt_cols !! col;
  if negb (dict_eqb src_def tgt_def) then
    let destructive := false in
    let destructive :=
      if truthy (get_or src_def "nullable" (SBool true))
         && is_False (get tgt_def "nullable")
      then true else destructive in
    let destructive :=
      if negb (py_eqb (get src_def "type") (get tgt_def "type"))
      then true else destructive in
    Some (ops ++ [Operation_init "alter_column" table (Some col)
                    (Some {[ "from" := ACol src_def; "to" := ACol tgt_def ]})
                    destructive])
  else Some ops.

(** The body of the loop over the tables of both schemas. *)
Definition table_body (src_tables tgt_tables : gmap string Dict)
    (ops : list Operation) (table : string) : option (list Operation) :=
  src_cols ← src_tables !! table ≫= columns_of;
  tgt_cols ← tgt_tables !! table ≫= columns_of;
  ops ← for_each (sorted (dom tgt_cols ∖ dom src_cols)) (λ ops col,
      col_def ← tgt_cols !! col;
      Some (ops ++ [Operation_init "add_column" table (Some col)
                      (Some {[ "column_def" := ACol col_def ]}) false])) ops;
  ops ← for_each (sorted (dom src_cols ∖ dom tgt_cols)) (λ ops col,
      Some (ops ++ [Operation_init "drop_column" table (Some col) None true])) ops;
  for_each (sorted (dom src_cols ∩ dom tgt_cols))
    (alter_body table src_cols tgt_cols) ops.

Definition diff_schemas (source target : Schema) : option (list Operation) :=
  let ops := [] in
  let src_tables := tables source in
  let tgt_tables := tables target in
  ops ← for_each (sorted (dom tgt_tables ∖ dom src_tables)) (λ ops table,
      t ← tgt_tables !! table;
      Some (ops ++ [Operation_init "create_table" table None (Some t) false])) ops;
  ops ← for_each (sorted (dom src_tables ∖ dom tgt_tables)) (λ ops table,
      Some (ops ++ [Operation_init "drop_table" table None None true])) ops;
  for_each (sorted (dom src_tables ∩ dom tgt_tables))
    (table_body src_tables tgt_tables) ops.

(** ** Dialect emitters *)

(** The [CREATE TABLE] statement of [pg_up_sql] and [sqlite_up_sql]: the
    columns of [op.payload["columns"]] rendered in sorted name order. *)
Definition create_table_sql (op : Operation) (dialect : string)
  : option (list string) :=
  cols ← payload op !! "columns" ≫= as_cols;
  rendered ← mapM (λ name, d ← cols !! name; column_sql name d dialect)
                  (sorted_keys cols);
  let col_sql := join ("," +:+ nl +:+ "  ") rendered in
  Some ["CREATE TABLE " +:+ dq +:+ table op +:+ dq +:+ " (" +:+ nl +:+ "  "
        +:+ col_sql +:+ nl +:+ ");"].

(** [ALTER TABLE "<table>" ALTER COLUMN "<column>" ] *)
Definition alter_prefix (op : Operation) : string :=
  "ALTER TABLE " +:+ dq +:+ table op +:+ dq +:+ " ALTER COLUMN " +:+ dq
  +:+ str_opt (column op) +:+ dq +:+ " ".

(** The [alter_column] branch of [pg_up_sql] (on [payload["to"]]) and of
    [pg_down_sql] (on [payload["from"]]). *)
Definition pg_alter_lines (op : Operation) (key : string) : option (list string) :=
  def ← payload op !! key ≫= as_col;
  ty ← def !! "type";
  let lines := [alter_prefix op +:+ "TYPE " +:+ str ty +:+ ";"] in
  let lines :=
    if truthy (get_or def "nullable" (SBool true))
    then lines ++ [alter_prefix op +:+ "DROP NOT NULL;"]
    else lines ++ [alter_prefix op +:+ "SET NOT NULL;"] in
  let lines :=
    match non_null_default def with
    | Some default_val =>
        lines ++ [alter_prefix op +:+ "SET DEFAULT " +:+ default_sql default_val +:+ ";"]
    | None => lines ++ [alter_prefix op +:+ "DROP DEFAULT;"]
    end in
  Some lines.

Definition drop_table_sql (op : Operation) : string :=
  "DROP TABLE " +:+ dq +:+ table op +:+ dq +:+ ";".

Definition add_column_sql (op : Operation) (dialect : string) : option (list string) :=
  def ← payload op !! "column_def" ≫= as_col;
  c ← column_sql (default "" (column op)) def dialect;
  Some ["ALTER TABLE " +:+ dq +:+ table op +:+ dq +:+ " ADD COLUMN " +:+ c +:+ ";"].

Definition drop_column_sql (op : Operation) : string :=
  "ALTER TABLE " +:+ dq +:+ table op +:+ dq +:+ " DROP COLUMN " +:+ dq
  +:+ str_opt (column op) +:+ dq +:+ ";".

Definition unsupported (op : Operation) : string :=
  "-- unsupported operation: " +:+ op_type op.

(** [op.table . op.column] between double quotes. *)
Definition quoted_path (op : Operation) : string :=
  dq +:+ table op +:+ "." +:+ str_opt (column op) +:+ dq.

Definition pg_up_sql (op : Operation) : option (list string) :=
  if String.eqb (op_type op) "create_table" then create_table_sql op "postgres"
  else if String.eqb (op_type op) "drop_table" then Some [drop_table_sql op]
  else if String.eqb (op_type op) "add_column" then add_column_sql op "postgres"
  else if String.eqb (op_type op) "drop_column" then Some [drop_column_sql op]
  else if String.eqb (op_type op) "alter_column" then pg_alter_lines op "to"
  else Some [unsupported op].

Definition pg_down_sql (op : Operation) : option (list string) :=
  if String.eqb (op_type op) "create_table" then Some [drop_table_sql op]
  else if String.eqb (op_type op) "drop_table" then
    Some ["-- manual rollback required: recreate dropped table " +:+ dq
          +:+ table op +:+ dq]
  else if String.eqb (op_type op) "add_column" then Some [drop_column_sql op]
  else if String.eqb (op_type op) "drop_column" then
    Some ["-- manual rollback required: re-add dropped column " +:+ quoted_path op]
  else if String.eqb (op_type op) "alter_column" then pg_alter_lines op "from"
  else Some [unsupported op].

Definition sqlite_up_sql (op : Operation) : option (list string) :=
  if String.eqb (op_type op) "create_table" then create_table_sql op "sqlite"
  else if String.eqb (op_type op) "drop_table" then Some [drop_table_sql op]
  else if String.eqb (op_type op) "add_column" then add_column_sql op "sqlite"
  else if String.eqb (op_type op) "drop_column"
          || String.eqb (op_type op) "alter_column" then
    Some ["-- manual action required in sqlite: " +:+ op_type op +:+ " on "
          +:+ quoted_path op]
  else Some [unsupported op].

Definition sqlite_down_sql (op : Operation) : option (list string) :=
  if String.eqb (op_type op) "create_table" then Some [drop_table_sql op]
  else if String.eqb (op_type op) "drop_table" then
    Some ["-- manual rollback required: recreate dropped table " +:+ dq
          +:+ table op +:+ dq]
  else if String.eqb (op_type op) "add_column" then
    Some ["-- manual rollback required in sqlite: drop column " +:+ quoted_path op]
  else if String.eqb (op_type op) "drop_column"
          || String.eqb (op_type op) "alter_column" then
    Some ["-- manual rollback required in sqlite: " +:+ op_type op +:+ " on "
          +:+ quoted_path op]
  else Some [unsupported op].

(** ** Report assembler *)

(** The loop of [render_sql]: both line lists, extended per operation. *)
Definition emit_body (dialect : string) (acc : list string * list string)
    (op : Operation) : option (list string * list string) :=
  let '(up_lines, down_lines) := acc in
  if String.eqb dialect "postgres" then
    u ← pg_up_sql op; d ← pg_down_sql op;
    Some (up_lines ++ u, down_lines ++ d)
  else
    u ← sqlite_up_sql op; d ← sqlite_down_sql op;
    Some (up_lines ++ u, down_lines ++ d).

Definition render_sql (ops : list Operation) (dialect : string) : option string :=
  '(up_lines, down_lines) ← for_each ops (emit_body dialect) ([], []);
  Some (join nl
    (["-- Generated by database-migration-generator"; "-- UP"]
     ++ up_lines ++ [""; "-- DOWN"] ++ reverse down_lines ++ [""])).

(** The counting loop of [dry_run_summary]. *)
Definition count_body (acc : gmap string nat * nat) (op : Operation)
  : gmap string nat * nat :=
  let '(by_type, destructive_count) := acc in
  (<[op_type op := default 0 (by_type !! op_type op) + 1]> by_type,
   if destructive op then destructive_count + 1 else destructive_count).

Definition dry_run_summary (ops : list Operation) : option string :=
  let lines := ["Dry-run summary:"; "  total_operations: " +:+ pretty (length ops)] in
  let '(by_type, destructive_count) := foldl count_body (∅, 0) ops in
  lines ← for_each (sorted_keys by_type) (λ lines key,
      n ← by_type !! key;
      Some (lines ++ ["  " +:+ key +:+ ": " +:+ pretty n])) lines;
  let lines := lines ++ ["  destructive_operations: " +:+ pretty destructive_count] in
  Some (join nl lines).

(** ** Driver: the part of [main] after the schemas are loaded *)

Inductive Outcome : Type :=
| Halted (report : list string)
| Output (text : string).

(** One line of the destructive-operations report. *)
Definition describe (op : Operation) : string :=
  let col := match column op with
             | Some c => if String.eqb c "" then "" else "." +:+ c
             | None => ""
             end in
  "  - " +:+ op_type op +:+ ": " +:+ table op +:+ col.

Definition run (source target : Schema) (dialect : string)
    (dry_run allow_destructive : bool) : option Outcome :=
  operations ← diff_schemas source target;
  let destructive_ops := filter (λ op, destructive op = true) operations in
  if negb (bool_decide (destructive_ops = [])) && negb allow_destructive then
    Some (Halted (describe <$> destructive_ops))
  else
    output ← (if dry_run then dry_run_summary operations
              else render_sql operations dialect);
    Some (Output output).

(** * Definitions for the properties *)

(** ** Order on strings *)

Definition str_lt (a b : string) : Prop := String.ltb a b = true.

(** Strictly ascending, every element below all the later ones. *)
Definition ascending (l : list string) : Prop := StronglySorted str_lt l.

(** ** The diff as the specification lays it out *)

(** The operations are written as records, the loops as maps over the
    sorted name lists; [!!!] is the lookup with the empty dict as default. *)

Definition create_table_op (tgt : gmap string Dict) (t : string) : Operation :=
  {| op_type := "create_table"; table := t; column := None;
     payload := tgt !!! t; destructive := false |}.

Definition drop_table_op (t : string) : Operation :=
  {| op_type := "drop_table"; table := t; column := None;
     payload := ∅; destructive := true |}.

Definition add_column_op (t : string) (tc : gmap string ColDef) (c : string)
  : Operation :=
  {| op_type := "add_column"; table := t; column := Some c;
     payload := {[ "column_def" := ACol (tc !!! c) ]}; destructive := false |}.

Definition drop_column_op (t c : string) : Operation :=
  {| op_type := "drop_column"; table := t; column := Some c;
     payload := ∅; destructive := true |}.

(** The destructive flag the loop computes for an altered column. *)
Definition alter_destructive (src_def tgt_def : ColDef) : bool :=
  truthy (get_or src_def "nullable" (SBool true)) && is_False (get tgt_def "nullable")
  || negb (py_eqb (get src_def "type") (get tgt_def "type")).

Definition alter_column_op (t : string) (sc tc : gmap string ColDef) (c : string)
  : Operation :=
  {| op_type := "alter_column"; table := t; column := Some c;
     payload := {[ "from" := ACol (sc !!! c); "to" := ACol (tc !!! c) ]};
     destructive := alter_destructive (sc !!! c) (tc !!! c) |}.

(** The column definitions of [c] in source and target are unequal. *)
Definition changed (sc tc : gmap string ColDef) (c : string) : bool :=
  negb (dict_eqb (sc !!! c) (tc !!! c)).

(** The block of one table present in both schemas. *)
Definition columns_block (t : string) (sc tc : gmap string ColDef)
  : list Operation :=
  (add_column_op t tc <$> sorted (dom tc ∖ dom sc))
  ++ (drop_column_op t <$> sorted (dom sc ∖ dom tc))
  ++ (alter_column_op t sc tc
        <$> filter (λ c, changed sc tc c = true) (sorted (dom sc ∩ dom tc))).

Definition cols_of (tabs : gmap string Dict) (t : string) : gmap string ColDef :=
  default ∅ (tabs !! t ≫= columns_of).

Definition table_block (src tgt : gmap string Dict) (t : string) : list Operation :=
  columns_block t (cols_of src t) (cols_of tgt t).

Definition diff_layout (source target : Schema) : list Operation :=
  let src := tables source in
  let tgt := tables target in
  (create_table_op tgt <$> sorted (dom tgt ∖ dom src))
  ++ (drop_table_op <$> sorted (dom src ∖ dom tgt))
  ++ concat (table_block src tgt <$> sorted (dom src ∩ dom tgt)).

Definition table_block_opt (src tgt : gmap string Dict) (t : string)
  : option (list Operation) :=
  sc ← src !! t ≫= columns_of;
  tc ← tgt !! t ≫= columns_of;
  Some (columns_block t sc tc).

(** The table names carried by the operations of one kind. *)
Definition names_of (kind : string) (ops : list Operation) : list string :=
  table <$> filter (λ op, op_type op = kind) ops.

(** ** Well-formed schemas: what [load_schema] validates *)

Definition wf_cols (cs : gmap string ColDef) : Prop :=
  map_Forall (λ _ (c : ColDef), is_Some (c !! "type")) cs.

Definition wf_table (t : Dict) : Prop :=
  match columns_of t with
  | Some cs => wf_cols cs
  | None => False
  end.

Definition wf_schema (s : Schema) : Prop :=
  map_Forall (λ _ t, wf_table t) (tables s).

Global Instance wf_cols_dec cs : Decision (wf_cols cs).
Proof. unfold wf_cols. apply _. Defined.

Global Instance wf_table_dec t : Decision (wf_table t).
Proof. unfold wf_table. destruct (columns_of t); apply _. Defined.

Global Instance wf_schema_dec s : Decision (wf_schema s).
Proof. unfold wf_schema. apply _. Defined.

(** The columns of two tables are equal as Python compares them: the same
    column names, and per name definitions that compare equal. *)
Definition cols_equal (sc tc : gmap string ColDef) : Prop :=
  dom sc = dom tc ∧ map_Forall (λ c a, dict_eqb a (tc !!! c) = true) sc.

Global Instance cols_equal_dec sc tc : Decision (cols_equal sc tc).
Proof. unfold cols_equal. apply _. Defined.

(** ** Destructive classification *)

(** The classification in the words of the specification. *)
Definition nullable_or_unspecified (d : ColDef) : bool :=
  match d !! "nullable" with
  | None | Some (SBool true) => true
  | _ => false
  end.

Definition explicitly_non_nullable (d : ColDef) : bool :=
  match d !! "nullable" with
  | Some (SBool false) => true
  | _ => false
  end.

Definition type_changes (src_def tgt_def : ColDef) : bool :=
  bool_decide (src_def !! "type" ≠ tgt_def !! "type").

Definition spec_destructive (src_def tgt_def : ColDef) : bool :=
  nullable_or_unspecified src_def && explicitly_non_nullable tgt_def
  || type_changes src_def tgt_def.

(** The attributes the classification reads are typed as in the data
    model: [type] is a string, [nullable] is absent or a boolean. *)
Definition typed_col (d : ColDef) : bool :=
  match d !! "type" with Some (SStr _) => true | _ => false end
  && match d !! "nullable" with None | Some (SBool _) => true | _ => false end.

(** ** Column fragments *)

(** [s] begins with [p], letter case aside. *)
Fixpoint ci_startswith (s p : string) : bool :=
  match p, s with
  | EmptyString, _ => true
  | String _ _, EmptyString => false
  | String a p', String b s' =>
      Ascii.eqb (upper_ascii a) (upper_ascii b) && ci_startswith s' p'
  end.

(** The rendering of a default in the words of the specification. *)
Definition spec_default (v : Scalar) : string :=
  match v with
  | SStr s => if ci_startswith s "CURRENT_" then s else "'" +:+ s +:+ "'"
  | _ => str v
  end.

Definition flag_set (d : ColDef) (k : string) : bool :=
  match d !! k with Some v => truthy v | None => false end.

(** The parts of a column fragment in the order of the specification. *)
Definition spec_column_parts (name : string) (ty : Scalar) (d : ColDef)
    (dialect : string) : list string :=
  [dq +:+ name +:+ dq; str ty]
  ++ (if flag_set d "primary_key" then ["PRIMARY KEY"] else [])
  ++ (if explicitly_non_nullable d then ["NOT NULL"] else [])
  ++ match d !! "default" with
     | Some v => if decide (v = SNull) then [] else ["DEFAULT " +:+ spec_default v]
     | None => []
     end
  ++ (if String.eqb dialect "sqlite" && flag_set d "autoincrement"
      then ["AUTOINCREMENT"] else []).

(** ** Rendered documents *)

(** [s] holds a line feed. *)
Fixpoint has_nl (s : string) : bool :=
  match s with
  | EmptyString => false
  | String c s' => Ascii.eqb c "010"%char || has_nl s'
  end.

(** The emitter pair [render_sql] selects for a dialect. *)
Definition up_sql (dialect : string) (op : Operation) : option (list string) :=
  if String.eqb dialect "postgres" then pg_up_sql op else sqlite_up_sql op.

Definition down_sql (dialect : string) (op : Operation) : option (list string) :=
  if String.eqb dialect "postgres" then pg_down_sql op else sqlite_down_sql op.

Definition header : list string :=
  ["-- Generated by database-migration-generator"; "-- UP"].

Definition separator : list string := [""; "-- DOWN"].

(** The document with the down blocks in reverse operation order and each
    block in its own statement order. *)
Definition blockwise_render_sql (ops : list Operation) (dialect : string)
  : option string :=
  ups ← mapM (up_sql dialect) ops;
  downs ← mapM (down_sql dialect) ops;
  Some (join nl (header ++ concat ups ++ separator
                 ++ concat (reverse downs) ++ [""])).

(** The operation kind is none of the five the diff engine produces. *)
Definition unknown_kind (op : Operation) : Prop :=
  op_type op ∉ ["create_table"; "drop_table"; "add_column"; "drop_column";
                "alter_column"].

(** ** Dry-run summary *)

(** The number of operations of one kind. *)
Definition count_kind (kind : string) (ops : list Operation) : nat :=
  length (filter (λ op, op_type op = kind) ops).

(** The kinds that occur in an operation list. *)
Definition kinds (ops : list Operation) : gset string :=
  list_to_set (op_type <$> ops).

Definition count_destructive (ops : list Operation) : nat :=
  length (filter (λ op, destructive op = true) ops).

(** The summary in the words of the specification. *)
Definition spec_summary (ops : list Operation) : string :=
  join nl
    (["Dry-run summary:"; "  total_operations: " +:+ pretty (length ops)]
     ++ ((λ kind, "  " +:+ kind +:+ ": " +:+ pretty (count_kind kind ops))
           <$> sorted (kinds ops))
     ++ ["  destructive_operations: " +:+ pretty (count_destructive ops)]).

(** ** Example schemas and operations *)

Definition col_int_pk : ColDef := {[ "type" := SStr "INTEGER"; "primary_key" := SBool true ]}.
Definition col_text : ColDef := {[ "type" := SStr "TEXT" ]}.
Definition col_text_nn : ColDef :=
  {[ "type" := SStr "TEXT"; "nullable" := SBool false; "default" := SStr "x" ]}.

Definition schema_a : Schema :=
  {| tables := {[ "users" := {[ "columns" := ACols {[ "id" := col_int_pk; "email" := col_text ]} ]} ]} |}.
Definition schema_b : Schema :=
  {| tables := {[ "users" := {[ "columns" := ACols {[ "id" := col_int_pk; "email" := col_text_nn ]} ]};
                  "posts" := {[ "columns" := ACols {[ "id" := col_int_pk; "body" := col_text_nn ]} ]} ]} |}.

(** An additive change: one more table, one more column. *)
Definition schema_c : Schema :=
  {| tables := {[ "users" := {[ "columns" := ACols {[ "id" := col_int_pk; "email" := col_text;
                                                       "name" := col_text ]} ]};
                  "posts" := {[ "columns" := ACols {[ "id" := col_int_pk ]} ]} ]} |}.

Definition cols_a : gmap string ColDef := {[ "id" := col_int_pk; "email" := col_text ]}.
Definition cols_b : gmap string ColDef := {[ "id" := col_int_pk; "email" := col_text_nn ]}.

Definition col_flag_true : ColDef := {[ "type" := SStr "INTEGER"; "primary_key" := SBool true ]}.
Definition col_flag_one : ColDef := {[ "type" := SStr "INTEGER"; "primary_key" := SInt 1 ]}.
Definition tables_flag_true : gmap string Dict :=
  {[ "users" := {[ "columns" := ACols {[ "id" := col_flag_true ]} ]} ]}.
Definition tables_flag_one : gmap string Dict :=
  {[ "users" := {[ "columns" := ACols {[ "id" := col_flag_one ]} ]} ]}.

Definition col_created : ColDef :=
  {[ "type" := SStr "TIMESTAMP"; "nullable" := SBool false;
     "default" := SStr "current_timestamp" ]}.
Definition col_counter : ColDef :=
  {[ "type" := SStr "INTEGER"; "primary_key" := SBool true;
     "default" := SInt 0; "autoincrement" := SBool true ]}.

(** The schemas of the scenarios of the specification. *)
Definition schema_users : Schema :=
  {| tables := {[ "users" := {[ "columns" := ACols {[ "id" := col_int_pk ]} ]} ]} |}.
Definition schema_users_posts : Schema :=
  {| tables := {[ "users" := {[ "columns" := ACols {[ "id" := col_int_pk ]} ]};
                  "posts" := {[ "columns" := ACols {[ "id" := col_int_pk ]} ]} ]} |}.
Definition col_text_required : ColDef :=
  {[ "type" := SStr "TEXT"; "nullable" := SBool false ]}.
Definition schema_a_required : Schema :=
  {| tables := {[ "users" := {[ "columns" :=
       ACols {[ "id" := col_int_pk; "email" := col_text_required ]} ]} ]} |}.

Definition op_drop_email : Operation := drop_column_op "users" "email".

Definition op_rename : Operation :=
  {| op_type := "rename_table"; table := "users"; column := None;
     payload := ∅; destructive := false |}.

Ltac by_compute := apply (bool_decide_unpack _); vm_compute; exact I.

(** * Properties *)

(** ** The order on strings and [sorted] *)

Section string_order.

Lemma ascii_compare_N a b :
  Ascii.compare a b = (N_of_ascii a ?= N_of_ascii b)%N.
Proof. reflexivity. Qed.

Lemma ascii_compare_refl a : Ascii.compare a a = Eq.
Proof. rewrite ascii_compare_N. apply N.compare_refl. Qed.

Lemma compare_refl s : String.compare s s = Eq.
Proof. induction s as [|a s IH]; simpl; [done|]. by rewrite ascii_compare_refl. Qed.

Lemma compare_Eq s1 s2 : String.compare s1 s2 = Eq ↔ s1 = s2.
Proof.
  split; [apply String.compare_eq_iff|]. intros ->. apply compare_refl.
Qed.

Lemma compare_Lt_trans s1 s2 s3 :
  String.compare s1 s2 = Lt → String.compare s2 s3 = Lt →
  String.compare s1 s3 = Lt.
Proof.
  revert s2 s3. induction s1 as [|a s1 IH]; intros [|b s2] [|c s3]; simpl; try done.
  rewrite !ascii_compare_N.
  destruct (N.compare_spec (N_of_ascii a) (N_of_ascii b)) as [Hab|Hab|Hab];
    destruct (N.compare_spec (N_of_ascii b) (N_of_ascii c)) as [Hbc|Hbc|Hbc];
    try done; intros H1 H2.
  - rewrite Hab, Hbc, N.compare_refl. eauto.
  - rewrite Hab. by apply N.compare_lt_iff in Hbc as ->.
  - rewrite <- Hbc. by apply N.compare_lt_iff in Hab as ->.
  - assert (N_of_ascii a < N_of_ascii c)%N as Hac by lia.
    by apply N.compare_lt_iff in Hac as ->.
Qed.

Lemma str_le_lt_eq a b : str_le a b ↔ str_lt a b ∨ a = b.
Proof.
  unfold str_le, str_lt, String.leb, String.ltb.
  destruct (String.compare a b) eqn:E.
  - apply compare_Eq in E. naive_solver.
  - naive_solver.
  - split; [done|]. intros [ | -> ]; [done|]. by rewrite compare_refl in E.
Qed.

Lemma str_lt_irrefl a : ¬ str_lt a a.
Proof. unfold str_lt, String.ltb. by rewrite compare_refl. Qed.

Lemma str_lt_trans a b c : str_lt a b → str_lt b c → str_lt a c.
Proof.
  unfold str_lt, String.ltb. intros H1 H2.
  destruct (String.compare a b) eqn:E1; try done.
  destruct (String.compare b c) eqn:E2; try done.
  by rewrite (compare_Lt_trans _ _ _ E1 E2).
Qed.

Global Instance str_le_total : Total str_le.
Proof. intros a b. apply String.leb_total. Qed.

Global Instance str_le_trans : Transitive str_le.
Proof.
  intros a b c. rewrite !str_le_lt_eq.
  intros [H1| ->] [H2| ->]; eauto using str_lt_trans.
Qed.

Global Instance str_le_antisym : AntiSymm (=) str_le.
Proof. intros a b. apply String.leb_antisym. Qed.

End string_order.

Section sorted_spec.

Lemma sorted_perm (X : gset string) : sorted X ≡ₚ elements X.
Proof. apply merge_sort_Permutation. Qed.

Lemma elem_of_sorted (X : gset string) x : x ∈ sorted X ↔ x ∈ X.
Proof. by rewrite sorted_perm, elem_of_elements. Qed.

Lemma NoDup_sorted (X : gset string) : NoDup (sorted X).
Proof. rewrite sorted_perm. apply NoDup_elements. Qed.

Lemma StronglySorted_le_lt (l : list string) :
  StronglySorted str_le l → NoDup l → ascending l.
Proof.
  induction 1 as [|x l Hl IH Hx]; intros Hnd; [constructor|].
  apply NoDup_cons in Hnd as [Hnotin Hnd].
  constructor; [by apply IH|].
  rewrite Forall_forall in Hx |- *. intros y Hy.
  destruct (proj1 (str_le_lt_eq x y) (Hx y Hy)) as [ | -> ]; done.
Qed.

Lemma sorted_ascending (X : gset string) : ascending (sorted X).
Proof.
  apply StronglySorted_le_lt; [|apply NoDup_sorted].
  apply StronglySorted_merge_sort; apply _.
Qed.

Lemma ascending_filter (P : string → Prop) `{∀ x, Decision (P x)} l :
  ascending l → ascending (filter P l).
Proof.
  induction 1 as [|x l Hl IH Hx]; [constructor|].
  rewrite filter_cons. case_decide; [|done].
  constructor; [done|]. rewrite Forall_forall in Hx |- *.
  intros y [_ Hy]%list_elem_of_filter. by apply Hx.
Qed.

(** Two ascending lists with the same elements are the same list:
    [sorted] is determined by the set alone. *)
Lemma ascending_unique (l1 l2 : list string) :
  ascending l1 → ascending l2 → (∀ x, x ∈ l1 ↔ x ∈ l2) → l1 = l2.
Proof.
  intros H1. revert l2. induction H1 as [|x l1 H1 IH Hx]; intros l2 H2 Heq.
  - destruct l2 as [|y l2]; [done|]. exfalso.
    by apply (not_elem_of_nil y), Heq; left.
  - destruct H2 as [|y l2 H2 Hy].
    { exfalso. by apply (not_elem_of_nil x), Heq; left. }
    rewrite Forall_forall in Hx, Hy.
    assert (x = y) as ->.
    { assert (x ∈ y :: l2) as Hxin by (apply Heq; left).
      assert (y ∈ x :: l1) as Hyin by (apply Heq; left).
      apply elem_of_cons in Hxin as [|Hxin]; [done|].
      apply elem_of_cons in Hyin as [|Hyin]; [done|].
      exfalso. apply (str_lt_irrefl x).
      eapply str_lt_trans; [by apply Hx|by apply Hy]. }
    f_equal. apply IH; [done|]. intros z. split; intros Hz.
    + assert (z ∈ y :: l2) as Hin by (apply Heq; by right).
      apply elem_of_cons in Hin as [->|]; [|done].
      exfalso. by apply (str_lt_irrefl y), Hx.
    + assert (z ∈ y :: l1) as Hin by (apply Heq; by right).
      apply elem_of_cons in Hin as [->|]; [|done].
      exfalso. by apply (str_lt_irrefl y), Hy.
Qed.

End sorted_spec.

(** ** Loops that append *)

Section loops.
Context {A B : Type}.
Implicit Types (xs : list A) (acc : list B).

(** A loop whose body appends [g x] and never raises. *)
Lemma for_each_total (body : list B → A → option (list B)) (g : A → list B) xs acc :
  (∀ acc x, x ∈ xs → body acc x = Some (acc ++ g x)) →
  for_each xs body acc = Some (acc ++ concat (g <$> xs)).
Proof.
  revert acc. induction xs as [|x xs IH]; intros acc Hbody; simpl.
  - by rewrite app_nil_r.
  - rewrite Hbody by left. simpl. rewrite IH.
    + by rewrite <- app_assoc.
    + intros acc' y Hy. apply Hbody. by right.
Qed.

(** A loop whose body appends [f x], or raises where [f x] does. *)
Lemma for_each_partial (body : list B → A → option (list B))
    (f : A → option (list B)) xs acc :
  (∀ acc x, x ∈ xs → body acc x = l ← f x; Some (acc ++ l)) →
  for_each xs body acc = ls ← mapM f xs; Some (acc ++ concat ls).
Proof.
  revert acc. induction xs as [|x xs IH]; intros acc Hbody; simpl.
  - by rewrite app_nil_r.
  - rewrite Hbody by left. destruct (f x) as [l|]; simpl; [|done].
    rewrite IH by (intros acc' y Hy; apply Hbody; by right).
    destruct (mapM f xs) as [ls|]; simpl; [|done].
    by rewrite <- app_assoc.
Qed.

Lemma concat_fmap_singleton (h : A → B) xs :
  concat ((λ x, [h x]) <$> xs) = h <$> xs.
Proof. induction xs as [|x xs IH]; simpl; [done|]. by f_equal. Qed.

Lemma concat_singletons (P : A → bool) (h : A → B) xs :
  concat ((λ x, if P x then [h x] else []) <$> xs)
  = h <$> filter (λ x, P x = true) xs.
Proof.
  induction xs as [|x xs IH]; simpl; [done|].
  rewrite filter_cons. case_decide as HP.
  - rewrite HP. simpl. by f_equal.
  - by destruct (P x).
Qed.

End loops.

(** ** The loops of the diff engine *)

Section diff_structure.

Lemma alter_body_spec t (sc tc : gmap string ColDef) ops c :
  c ∈ dom sc ∩ dom tc →
  alter_body t sc tc ops c
  = Some (ops ++ if changed sc tc c then [alter_column_op t sc tc c] else []).
Proof.
  intros [Hs Ht]%elem_of_intersection.
  apply elem_of_dom in Hs as [sd Hs]. apply elem_of_dom in Ht as [td Ht].
  unfold alter_body, changed, alter_column_op, alter_destructive.
  rewrite !lookup_total_alt, Hs, Ht. simpl.
  destruct (dict_eqb sd td); simpl; [by rewrite app_nil_r|].
  unfold Operation_init. simpl. do 3 f_equal.
  destruct (truthy _ && is_False _), (negb (py_eqb _ _)); done.
Qed.

(** The three column loops of one table. *)
Lemma columns_loops t (sc tc : gmap string ColDef) (ops : list Operation) :
  (ops ← for_each (sorted (dom tc ∖ dom sc)) (λ ops col,
      col_def ← tc !! col;
      Some (ops ++ [Operation_init "add_column" t (Some col)
                      (Some {[ "column_def" := ACol col_def ]}) false])) ops;
   ops ← for_each (sorted (dom sc ∖ dom tc)) (λ ops col,
      Some (ops ++ [Operation_init "drop_column" t (Some col) None true])) ops;
   for_each (sorted (dom sc ∩ dom tc)) (alter_body t sc tc) ops)
  = Some (ops ++ columns_block t sc tc).
Proof.
  unfold columns_block.
  rewrite (for_each_total _ (λ c, [add_column_op t tc c])); last first.
  { intros acc c [Hc _]%elem_of_sorted%elem_of_difference.
    apply elem_of_dom in Hc as [d Hd].
    unfold add_column_op. by rewrite lookup_total_alt, Hd. }
  simpl.
  rewrite (for_each_total _ (λ c, [drop_column_op t c])) by done.
  simpl.
  rewrite (for_each_total _
    (λ c, if changed sc tc c then [alter_column_op t sc tc c] else [])); last first.
  { intros acc c Hc%elem_of_sorted. by apply alter_body_spec. }
  rewrite concat_singletons.
  rewrite !concat_fmap_singleton, <- !app_assoc. done.
Qed.

Lemma table_body_spec src tgt ops t :
  table_body src tgt ops t = l ← table_block_opt src tgt t; Some (ops ++ l).
Proof.
  unfold table_body, table_block_opt.
  destruct (src !! t ≫= columns_of) as [sc|]; simpl; [|done].
  destruct (tgt !! t ≫= columns_of) as [tc|]; simpl; [|done].
  apply columns_loops.
Qed.

Lemma table_block_opt_Some src tgt t l :
  table_block_opt src tgt t = Some l → l = table_block src tgt t.
Proof.
  unfold table_block_opt, table_block, cols_of.
  destruct (src !! t ≫= columns_of) as [sc|]; simpl; [|done].
  destruct (tgt !! t ≫= columns_of) as [tc|]; simpl; [|done].
  congruence.
Qed.

(** The whole diff: the two table loops never raise, the third raises
    where a table of both schemas has no [columns] mapping. *)
Lemma diff_schemas_unfold source target :
  diff_schemas source target
  = blocks ← mapM (table_block_opt (tables source) (tables target))
                  (sorted (dom (tables source) ∩ dom (tables target)));
    Some ((create_table_op (tables target)
             <$> sorted (dom (tables target) ∖ dom (tables source)))
          ++ (drop_table_op <$> sorted (dom (tables source) ∖ dom (tables target)))
          ++ concat blocks).
Proof.
  unfold diff_schemas.
  rewrite (for_each_total _ (λ t, [create_table_op (tables target) t])); last first.
  { intros acc t [Ht _]%elem_of_sorted%elem_of_difference.
    apply elem_of_dom in Ht as [d Hd].
    unfold create_table_op. by rewrite lookup_total_alt, Hd. }
  simpl.
  rewrite (for_each_total _ (λ t, [drop_table_op t])) by done.
  simpl.
  rewrite (for_each_partial _ (table_block_opt (tables source) (tables target)))
    by (intros; apply table_body_spec).
  destruct (mapM _ _) as [blocks|]; simpl; [|done].
  by rewrite !concat_fmap_singleton, <- app_assoc.
Qed.

Lemma diff_schemas_Some source target ops :
  diff_schemas source target = Some ops → ops = diff_layout source target.
Proof.
  rewrite diff_schemas_unfold. unfold diff_layout.
  destruct (mapM _ _) as [blocks|] eqn:E; simpl; [|done].
  intros [= <-]. do 3 f_equal.
  apply mapM_Some in E. clear -E.
  induction E as [|t l ts ls Ht _ IH]; simpl; [done|].
  by rewrite IH, (table_block_opt_Some _ _ _ _ Ht).
Qed.

Lemma wf_schema_columns s t d :
  wf_schema s → tables s !! t = Some d →
  ∃ cs, columns_of d = Some cs ∧ wf_cols cs.
Proof.
  intros Hwf Ht. specialize (Hwf t d Ht). unfold wf_table in Hwf.
  destruct (columns_of d) as [cs|]; [eauto|done].
Qed.

Lemma diff_schemas_wf source target :
  wf_schema source → wf_schema target →
  diff_schemas source target = Some (diff_layout source target).
Proof.
  intros Hs Ht.
  destruct (diff_schemas source target) as [ops|] eqn:E.
  { by rewrite (diff_schemas_Some _ _ _ E). }
  exfalso. rewrite diff_schemas_unfold in E.
  destruct (mapM _ _) as [blocks|] eqn:EM; simpl in E; [done|].
  apply mapM_None_1, Exists_exists in EM as (t & Hin & Hnone).
  apply elem_of_sorted, elem_of_intersection in Hin as [H1 H2].
  apply elem_of_dom in H1 as [d1 Hd1]. apply elem_of_dom in H2 as [d2 Hd2].
  destruct (wf_schema_columns _ _ _ Hs Hd1) as (c1 & Hc1 & _).
  destruct (wf_schema_columns _ _ _ Ht Hd2) as (c2 & Hc2 & _).
  unfold table_block_opt in Hnone.
  rewrite Hd1, Hd2 in Hnone. simpl in Hnone. by rewrite Hc1, Hc2 in Hnone.
Qed.

End diff_structure.

(** ** Diff engine: ordering *)

(** C2. On well-formed schemas the diff returns its operations in the fixed
    layout [diff_layout]: the [create_table] operations of the tables only
    in the target, in sorted table order; then the [drop_table] operations
    of the tables only in the source, in sorted order; then, per table of
    both schemas in sorted order, the [add_column], [drop_column] and
    [alter_column] operations, each group in sorted column order.  Every
    [sorted] list is strictly ascending, holds exactly the elements of its
    set and is the only such list; the columns kept for [alter_column] are
    ascending too. *)
Theorem diff_schemas_order (source target : Schema) :
  wf_schema source → wf_schema target →
  diff_schemas source target = Some (diff_layout source target)
  ∧ (∀ X : gset string,
       ascending (sorted X) ∧ (∀ x, x ∈ sorted X ↔ x ∈ X)
       ∧ (∀ l, ascending l → (∀ x, x ∈ l ↔ x ∈ X) → l = sorted X)
       ∧ ∀ keep : string → bool,
           ascending (filter (λ x, keep x = true) (sorted X))).
Proof.
  intros Hs Ht. split; [by apply diff_schemas_wf|].
  intros X. split; [apply sorted_ascending|]. split; [apply elem_of_sorted|].
  split.
  - intros l Hl Hx. apply ascending_unique; [done|apply sorted_ascending|].
    intros x. by rewrite elem_of_sorted.
  - intros keep. apply ascending_filter, sorted_ascending.
Qed.

Lemma diff_schemas_order_witness :
  diff_schemas schema_a schema_b = Some (diff_layout schema_a schema_b)
  ∧ (∀ X : gset string,
       ascending (sorted X) ∧ (∀ x, x ∈ sorted X ↔ x ∈ X)
       ∧ (∀ l, ascending l → (∀ x, x ∈ l ↔ x ∈ X) → l = sorted X)
       ∧ ∀ keep : string → bool,
           ascending (filter (λ x, keep x = true) (sorted X))).
Proof.
  apply (diff_schemas_order schema_a schema_b);
    (apply (bool_decide_unpack _); vm_compute; exact I).
Defined.

(** ** Diff engine: equal definitions *)

Section equal_definitions.

Lemma py_eqb_refl v : py_eqb v v = true.
Proof.
  destruct v as [|[]|z|s]; simpl; try done.
  - apply Z.eqb_refl.
  - apply String.eqb_refl.
Qed.

Lemma dict_eqb_refl (d : ColDef) : dict_eqb d d = true.
Proof.
  unfold dict_eqb. rewrite Nat.eqb_refl. simpl.
  apply forallb_forall. intros [k v] Hin. simpl.
  apply list_elem_of_In, elem_of_map_to_list in Hin. rewrite Hin.
  apply py_eqb_refl.
Qed.

Lemma cols_equal_refl cs : cols_equal cs cs.
Proof.
  split; [done|]. intros c a Hc. rewrite lookup_total_alt, Hc. apply dict_eqb_refl.
Qed.

Lemma sorted_empty : sorted ∅ = [].
Proof. unfold sorted. by rewrite elements_empty. Qed.

Lemma filter_none {A} (P : A → Prop) `{∀ x, Decision (P x)} (l : list A) :
  (∀ x, x ∈ l → ¬ P x) → filter P l = [].
Proof.
  induction l as [|x l IH]; intros Hl; [done|].
  rewrite filter_cons_False by (apply Hl; left).
  apply IH. intros y Hy. apply Hl. by right.
Qed.

Lemma columns_block_equal t sc tc :
  cols_equal sc tc → columns_block t sc tc = [].
Proof.
  intros [Hdom Hall]. unfold columns_block.
  rewrite Hdom, difference_diag_L, sorted_empty. simpl.
  rewrite filter_none; [done|].
  intros c [Hc _]%elem_of_sorted%elem_of_intersection.
  rewrite <- Hdom in Hc. apply elem_of_dom in Hc as [a Ha].
  unfold changed. specialize (Hall c a Ha). simpl in Hall.
  rewrite (lookup_total_correct _ _ _ Ha). by rewrite Hall.
Qed.

Lemma concat_nils {A B} (g : A → list B) (l : list A) :
  (∀ x, x ∈ l → g x = []) → concat (g <$> l) = [].
Proof.
  induction l as [|x l IH]; intros Hl; simpl; [done|].
  rewrite Hl by left. apply IH. intros y Hy. apply Hl. by right.
Qed.

End equal_definitions.

(** C3. Diffing a well-formed schema against itself yields the empty
    operation list; and a table of both schemas whose column mappings are
    equal (same column names, equal definitions) adds no operation to the
    list the loop has built so far. *)
Theorem diff_schemas_idempotent :
  (∀ A : Schema, wf_schema A → diff_schemas A A = Some [])
  ∧ (∀ (src tgt : gmap string Dict) (t : string) (sc tc : gmap string ColDef)
       (ops : list Operation),
        src !! t ≫= columns_of = Some sc →
        tgt !! t ≫= columns_of = Some tc →
        cols_equal sc tc →
        table_body src tgt ops t = Some ops).
Proof.
  split.
  - intros A Hwf. rewrite diff_schemas_wf by done. unfold diff_layout.
    rewrite difference_diag_L, sorted_empty. simpl.
    f_equal. apply concat_nils. intros t _. apply columns_block_equal, cols_equal_refl.
  - intros src tgt t sc tc ops Hs Ht Heq.
    rewrite table_body_spec. unfold table_block_opt. rewrite Hs, Ht. simpl.
    by rewrite columns_block_equal, app_nil_r.
Qed.

Lemma diff_schemas_idempotent_witness :
  diff_schemas schema_b schema_b = Some []
  ∧ table_body tables_flag_true tables_flag_one [] "users" = Some [].
Proof.
  split.
  - apply (proj1 diff_schemas_idempotent). by_compute.
  - apply (proj2 diff_schemas_idempotent tables_flag_true tables_flag_one "users"
             {[ "id" := col_flag_true ]} {[ "id" := col_flag_one ]}).
    + vm_compute. reflexivity.
    + vm_compute. reflexivity.
    + by_compute.
Defined.

(** ** Diff engine: what the operations of a diff are *)

Section layout_members.

Lemma elem_of_columns_block t (sc tc : gmap string ColDef) op :
  op ∈ columns_block t sc tc →
  (∃ c, c ∈ dom tc ∖ dom sc ∧ op = add_column_op t tc c)
  ∨ (∃ c, c ∈ dom sc ∖ dom tc ∧ op = drop_column_op t c)
  ∨ (∃ c, c ∈ dom sc ∩ dom tc ∧ changed sc tc c = true
          ∧ op = alter_column_op t sc tc c).
Proof.
  unfold columns_block. rewrite !elem_of_app, !list_elem_of_fmap.
  intros [(c & -> & Hc)|[(c & -> & Hc)|(c & -> & Hc)]].
  - left. exists c. by rewrite <- elem_of_sorted.
  - right; left. exists c. by rewrite <- elem_of_sorted.
  - right; right. exists c.
    apply list_elem_of_filter in Hc as [Hch Hc]. by rewrite <- elem_of_sorted.
Qed.

Lemma elem_of_concat {A} (ls : list (list A)) (x : A) :
  x ∈ concat ls ↔ ∃ l, x ∈ l ∧ l ∈ ls.
Proof.
  induction ls as [|l ls IH]; simpl.
  - split; [by intros ?%not_elem_of_nil|]. by intros (l & _ & ?%not_elem_of_nil).
  - rewrite elem_of_app, IH. split.
    + intros [Hx|(l' & Hx & Hl')]; [exists l; split; [done|left]|].
      exists l'. split; [done|by right].
    + intros (l' & Hx & [->|Hl']%elem_of_cons); [by left|]. right. eauto.
Qed.

Lemma elem_of_diff_layout source target op :
  op ∈ diff_layout source target →
  (∃ t, t ∈ dom (tables target) ∖ dom (tables source)
        ∧ op = create_table_op (tables target) t)
  ∨ (∃ t, t ∈ dom (tables source) ∖ dom (tables target) ∧ op = drop_table_op t)
  ∨ (∃ t, t ∈ dom (tables source) ∩ dom (tables target)
          ∧ op ∈ table_block (tables source) (tables target) t).
Proof.
  unfold diff_layout. rewrite !elem_of_app, !list_elem_of_fmap.
  intros [(t & -> & Ht)|[(t & -> & Ht)|Hop]].
  - left. exists t. by rewrite <- elem_of_sorted.
  - right; left. exists t. by rewrite <- elem_of_sorted.
  - right; right. apply elem_of_concat in Hop as (b & Hop & Hb).
    apply list_elem_of_fmap in Hb as (t & -> & Ht).
    exists t. by rewrite <- elem_of_sorted.
Qed.

Lemma names_of_app kind l1 l2 :
  names_of kind (l1 ++ l2) = names_of kind l1 ++ names_of kind l2.
Proof. unfold names_of. by rewrite filter_app, fmap_app. Qed.

Lemma names_of_same kind (f : string → Operation) (l : list string) :
  (∀ t, op_type (f t) = kind) → (∀ t, table (f t) = t) →
  names_of kind (f <$> l) = l.
Proof.
  intros Hk Ht. unfold names_of.
  induction l as [|x l IH]; [done|]. rewrite fmap_cons.
  rewrite filter_cons_True by apply Hk. rewrite fmap_cons, Ht. by f_equal.
Qed.

Lemma names_of_other kind (l : list Operation) :
  (∀ op, op ∈ l → op_type op ≠ kind) → names_of kind l = [].
Proof. intros Hl. unfold names_of. by rewrite filter_none. Qed.

Lemma table_block_kinds src tgt t op :
  op ∈ table_block src tgt t →
  op_type op = "add_column" ∨ op_type op = "drop_column"
  ∨ op_type op = "alter_column".
Proof.
  intros [(c & _ & ->)|[(c & _ & ->)|(c & _ & _ & ->)]]%elem_of_columns_block;
    simpl; auto.
Qed.

Lemma names_of_create_layout source target :
  names_of "create_table" (diff_layout source target)
  = sorted (dom (tables target) ∖ dom (tables source)).
Proof.
  unfold diff_layout. rewrite !names_of_app.
  rewrite names_of_same by done.
  rewrite (names_of_other _ (drop_table_op <$> _)); last first.
  { intros op (t & -> & _)%list_elem_of_fmap. done. }
  rewrite names_of_other; [by rewrite app_nil_r|].
  intros op Hin. apply elem_of_concat in Hin as (b & Hop & Hb).
  apply list_elem_of_fmap in Hb as (t & Hb & _). rewrite Hb in Hop.
  apply table_block_kinds in Hop. intros Heq. rewrite Heq in Hop.
  by destruct Hop as [?|[?|?]].
Qed.

Lemma names_of_drop_layout source target :
  names_of "drop_table" (diff_layout source target)
  = sorted (dom (tables source) ∖ dom (tables target)).
Proof.
  unfold diff_layout. rewrite !names_of_app.
  rewrite (names_of_other _ (create_table_op _ <$> _)); last first.
  { intros op (t & -> & _)%list_elem_of_fmap. done. }
  rewrite names_of_same by done.
  rewrite names_of_other; [by rewrite app_nil_r|].
  intros op Hin. apply elem_of_concat in Hin as (b & Hop & Hb).
  apply list_elem_of_fmap in Hb as (t & Hb & _). rewrite Hb in Hop.
  apply table_block_kinds in Hop. intros Heq. rewrite Heq in Hop.
  by destruct Hop as [?|[?|?]].
Qed.

End layout_members.

(** C4. For well-formed schemas A and B both diffs return, and the table
    names of the [create_table] operations of diff(A, B) are those of the
    [drop_table] operations of diff(B, A), and the [drop_table] names of
    diff(A, B) are the [create_table] names of diff(B, A); the name lists
    are even equal as lists, hence as sets. *)
Theorem diff_create_drop_symmetry (A B : Schema) :
  wf_schema A → wf_schema B →
  ∃ opsAB opsBA,
    diff_schemas A B = Some opsAB ∧ diff_schemas B A = Some opsBA
    ∧ names_of "create_table" opsAB = names_of "drop_table" opsBA
    ∧ names_of "drop_table" opsAB = names_of "create_table" opsBA
    ∧ (list_to_set (names_of "create_table" opsAB) : gset string)
      = list_to_set (names_of "drop_table" opsBA)
    ∧ (list_to_set (names_of "drop_table" opsAB) : gset string)
      = list_to_set (names_of "create_table" opsBA).
Proof.
  intros HA HB. exists (diff_layout A B), (diff_layout B A).
  rewrite !diff_schemas_wf by done.
  rewrite !names_of_create_layout, !names_of_drop_layout. done.
Qed.

Lemma diff_create_drop_symmetry_witness :
  ∃ opsAB opsBA,
    diff_schemas schema_a schema_b = Some opsAB
    ∧ diff_schemas schema_b schema_a = Some opsBA
    ∧ names_of "create_table" opsAB = names_of "drop_table" opsBA
    ∧ names_of "drop_table" opsAB = names_of "create_table" opsBA
    ∧ (list_to_set (names_of "create_table" opsAB) : gset string)
      = list_to_set (names_of "drop_table" opsBA)
    ∧ (list_to_set (names_of "drop_table" opsAB) : gset string)
      = list_to_set (names_of "create_table" opsBA).
Proof. apply (diff_create_drop_symmetry schema_a schema_b); by_compute. Defined.

(** ** Diff engine: destructive classification *)

Section classification.

Lemma cols_of_Some tabs t c :
  c ∈ dom (cols_of tabs t) → tabs !! t ≫= columns_of = Some (cols_of tabs t).
Proof.
  unfold cols_of. destruct (tabs !! t ≫= columns_of) as [cs|]; simpl; [done|].
  by intros ?%not_elem_of_empty.
Qed.

(** Every operation of a diff is one of the five the loops build. *)
Lemma diff_op_cases source target ops op :
  diff_schemas source target = Some ops → op ∈ ops →
  (∃ t, op = create_table_op (tables target) t)
  ∨ (∃ t, op = drop_table_op t)
  ∨ (∃ t c, op = drop_column_op t c)
  ∨ (∃ t tc c, op = add_column_op t tc c)
  ∨ (∃ t sc tc c src_def tgt_def,
        tables source !! t ≫= columns_of = Some sc
        ∧ tables target !! t ≫= columns_of = Some tc
        ∧ sc !! c = Some src_def ∧ tc !! c = Some tgt_def
        ∧ dict_eqb src_def tgt_def = false
        ∧ op = alter_column_op t sc tc c).
Proof.
  intros ->%diff_schemas_Some
    [(t & _ & ->)|[(t & _ & ->)|(t & _ & Hop)]]%elem_of_diff_layout; eauto.
  apply elem_of_columns_block in Hop
    as [(c & _ & ->)|[(c & _ & ->)|(c & Hc & Hch & ->)]]; eauto 10.
  do 4 right. apply elem_of_intersection in Hc as [Hs Ht].
  pose proof (cols_of_Some _ _ _ Hs) as Es. pose proof (cols_of_Some _ _ _ Ht) as Et.
  apply elem_of_dom in Hs as [sd Hsd]. apply elem_of_dom in Ht as [td Htd].
  exists t, (cols_of (tables source) t), (cols_of (tables target) t), c, sd, td.
  repeat split; try done.
  unfold changed in Hch.
  rewrite (lookup_total_correct _ _ _ Hsd), (lookup_total_correct _ _ _ Htd) in Hch.
  by destruct (dict_eqb sd td).
Qed.

Lemma alter_destructive_typed src_def tgt_def :
  typed_col src_def = true → typed_col tgt_def = true →
  alter_destructive src_def tgt_def = spec_destructive src_def tgt_def.
Proof.
  unfold typed_col, alter_destructive, spec_destructive, type_changes,
    nullable_or_unspecified, explicitly_non_nullable, get, get_or.
  intros Hs Ht.
  destruct (src_def !! "type") as [[| | |s1]|]; simpl in Hs; try done.
  destruct (tgt_def !! "type") as [[| | |s2]|]; simpl in Ht; try done.
  f_equal.
  - f_equal.
    + by destruct (src_def !! "nullable") as [[|[]| |]|].
    + by destruct (tgt_def !! "nullable") as [[|[]| |]|].
  - simpl. destruct (String.eqb_spec s1 s2) as [->|Hne]; simpl.
    + by rewrite bool_decide_eq_false_2 by (by intros []).
    + rewrite bool_decide_eq_true_2; [done|]. congruence.
Qed.

End classification.

(** C5. For an [alter_column] operation of a diff, built from the source
    definition and the target definition of its column, the flag is the
    one the loop computes; on definitions typed as in the data model it is
    true when nullability tightens from nullable-or-unspecified to
    explicitly non-nullable, true when the [type] strings differ, and false
    otherwise.  The flag of a [drop_table] or [drop_column] operation is
    true. *)
Theorem destructive_classification (source target : Schema)
    (ops : list Operation) (op : Operation) :
  diff_schemas source target = Some ops → op ∈ ops →
  (op_type op = "alter_column" →
   ∃ sc tc c src_def tgt_def,
     tables source !! table op ≫= columns_of = Some sc
     ∧ tables target !! table op ≫= columns_of = Some tc
     ∧ column op = Some c
     ∧ sc !! c = Some src_def ∧ tc !! c = Some tgt_def
     ∧ payload op = {[ "from" := ACol src_def; "to" := ACol tgt_def ]}
     ∧ destructive op = alter_destructive src_def tgt_def
     ∧ (typed_col src_def = true → typed_col tgt_def = true →
        destructive op = spec_destructive src_def tgt_def))
  ∧ (op_type op = "drop_table" ∨ op_type op = "drop_column" →
     destructive op = true).
Proof.
  intros Hdiff Hop.
  destruct (diff_op_cases _ _ _ _ Hdiff Hop)
    as [(t & ->)|[(t & ->)|[(t & c & ->)|[(t & tc & c & ->)|
        (t & sc & tc & c & sd & td & Hs & Ht & Hsd & Htd & _ & ->)]]]];
    simpl; (split; [intros [=]|try done; intros [[=]|[=]]]).
  exists sc, tc, c, sd, td.
  rewrite (lookup_total_correct _ _ _ Hsd), (lookup_total_correct _ _ _ Htd).
  repeat split; try done. apply alter_destructive_typed.
Qed.

Lemma destructive_classification_witness :
  (op_type (alter_column_op "users" cols_a cols_b "email") = "alter_column" →
   ∃ sc tc c src_def tgt_def,
     tables schema_a !! "users" ≫= columns_of = Some sc
     ∧ tables schema_b !! "users" ≫= columns_of = Some tc
     ∧ Some "email" = Some c
     ∧ sc !! c = Some src_def ∧ tc !! c = Some tgt_def
     ∧ ({[ "from" := ACol (cols_a !!! "email"); "to" := ACol (cols_b !!! "email") ]} : Dict)
       = {[ "from" := ACol src_def; "to" := ACol tgt_def ]}
     ∧ alter_destructive (cols_a !!! "email") (cols_b !!! "email")
       = alter_destructive src_def tgt_def
     ∧ (typed_col src_def = true → typed_col tgt_def = true →
        alter_destructive (cols_a !!! "email") (cols_b !!! "email")
        = spec_destructive src_def tgt_def))
  ∧ (op_type (alter_column_op "users" cols_a cols_b "email") = "drop_table"
     ∨ op_type (alter_column_op "users" cols_a cols_b "email") = "drop_column" →
     destructive (alter_column_op "users" cols_a cols_b "email") = true).
Proof.
  apply (destructive_classification schema_a schema_b
           (diff_layout schema_a schema_b)
           (alter_column_op "users" cols_a cols_b "email")).
  - vm_compute. reflexivity.
  - apply (list_elem_of_lookup_2 _ 1). vm_compute. reflexivity.
Defined.

(** C10. In the operations of a diff every [create_table] and every
    [add_column] carries [destructive = false]; a true flag occurs only on
    a [drop_table], a [drop_column], or an [alter_column] whose source and
    target definitions meet the classification of the loop.  A diff with
    only [create_table] and [add_column] operations never makes the driver
    halt on the destructive-operations policy. *)
Theorem diff_destructive_invariant (source target : Schema)
    (ops : list Operation) :
  diff_schemas source target = Some ops →
  (∀ op, op ∈ ops →
     (op_type op = "create_table" ∨ op_type op = "add_column" →
      destructive op = false)
     ∧ (destructive op = true →
        op_type op = "drop_table" ∨ op_type op = "drop_column"
        ∨ (op_type op = "alter_column"
           ∧ ∃ src_def tgt_def,
               payload op = {[ "from" := ACol src_def; "to" := ACol tgt_def ]}
               ∧ alter_destructive src_def tgt_def = true)))
  ∧ ((∀ op, op ∈ ops →
        op_type op = "create_table" ∨ op_type op = "add_column") →
     ∀ dialect dry_run allow_destructive report,
       run source target dialect dry_run allow_destructive
       ≠ Some (Halted report)).
Proof.
  intros Hdiff.
  assert (∀ op, op ∈ ops →
     (op_type op = "create_table" ∨ op_type op = "add_column" →
      destructive op = false)
     ∧ (destructive op = true →
        op_type op = "drop_table" ∨ op_type op = "drop_column"
        ∨ (op_type op = "alter_column"
           ∧ ∃ src_def tgt_def,
               payload op = {[ "from" := ACol src_def; "to" := ACol tgt_def ]}
               ∧ alter_destructive src_def tgt_def = true))) as Hinv.
  { intros op Hop.
    destruct (diff_op_cases _ _ _ _ Hdiff Hop)
      as [(t & ->)|[(t & ->)|[(t & c & ->)|[(t & tc & c & ->)|
          (t & sc & tc & c & sd & td & _ & _ & _ & _ & _ & ->)]]]];
      simpl; (split; [try done; by intros [[=]|[=]]|]); try done; auto.
    intros Hd. right; right. split; [done|]. eauto. }
  split; [done|].
  intros Hadd dialect dry_run allow report. unfold run. rewrite Hdiff. simpl.
  rewrite (filter_none (λ op, destructive op = true) ops); last first.
  { intros op Hop. rewrite (proj1 (Hinv op Hop) (Hadd op Hop)). done. }
  simpl. by destruct (if dry_run then _ else _).
Qed.

Lemma diff_destructive_invariant_witness :
  (∀ op, op ∈ diff_layout schema_a schema_c →
     (op_type op = "create_table" ∨ op_type op = "add_column" →
      destructive op = false)
     ∧ (destructive op = true →
        op_type op = "drop_table" ∨ op_type op = "drop_column"
        ∨ (op_type op = "alter_column"
           ∧ ∃ src_def tgt_def,
               payload op = {[ "from" := ACol src_def; "to" := ACol tgt_def ]}
               ∧ alter_destructive src_def tgt_def = true)))
  ∧ (∀ dialect dry_run allow_destructive report,
       run schema_a schema_c dialect dry_run allow_destructive
       ≠ Some (Halted report)).
Proof.
  destruct (diff_destructive_invariant schema_a schema_c
              (diff_layout schema_a schema_c)) as [Hinv Hrun].
  - vm_compute. reflexivity.
  - split; [exact Hinv|]. apply Hrun.
    apply (proj1 (Forall_forall _ _)). by_compute.
Defined.

(** ** Column SQL renderer *)

Section column_renderer.

Lemma startswith_upper s p :
  upper p = p → startswith (upper s) p = ci_startswith s p.
Proof.
  revert s. induction p as [|a p IH]; intros s Hp; [by destruct s|].
  injection Hp as Ha Hp. destruct s as [|b s]; simpl; [done|].
  rewrite IH by done. rewrite Ha.
  by destruct (Ascii.eqb a (upper_ascii b)).
Qed.

Lemma default_sql_spec v : default_sql v = spec_default v.
Proof.
  destruct v as [| | |s]; simpl; try done.
  rewrite (startswith_upper s "CURRENT_") by done.
  by destruct (ci_startswith s "CURRENT_").
Qed.

Lemma column_sql_parts name ty (d : ColDef) dialect :
  d !! "type" = Some ty →
  column_sql name d dialect = Some (join " " (spec_column_parts name ty d dialect)).
Proof.
  intros Hty. unfold column_sql, spec_column_parts. rewrite Hty. simpl.
  unfold flag_set, explicitly_non_nullable, non_null_default, get.
  f_equal. f_equal.
  destruct (d !! "primary_key") as [pk|]; simpl;
    [destruct (truthy pk)|];
    (destruct (d !! "nullable") as [[|[]| |]|]; simpl);
    (destruct (d !! "default") as [v|]; simpl;
      [destruct (decide (v = SNull)) as [->|Hv]; simpl;
        [|rewrite <- default_sql_spec; destruct v; try done]|]);
    (destruct (String.eqb dialect "sqlite"); simpl;
      [destruct (d !! "autoincrement") as [ai|]; simpl; [destruct (truthy ai)|]|]);
    done.
Qed.

Lemma column_sql_is_Some name (d : ColDef) dialect :
  is_Some (d !! "type") → is_Some (column_sql name d dialect).
Proof. intros [ty Hty]. rewrite (column_sql_parts _ _ _ _ Hty). eauto. Qed.

End column_renderer.

(** C6. A column definition with a [type] renders as its parts joined by
    one space, in this order: the quoted name, the type, [PRIMARY KEY] if
    the flag is set, [NOT NULL] if [nullable] is explicitly false,
    [DEFAULT <value>] if a non-null default is present, and [AUTOINCREMENT]
    only if the dialect is SQLite and the flag is set.  A string default
    that does not begin with [CURRENT_], letter case aside, is put between
    single quotes; every other non-null default is written as [str] gives
    it. *)
Theorem column_sql_order (name : string) (ty : Scalar) (d : ColDef)
    (dialect : string) :
  d !! "type" = Some ty →
  column_sql name d dialect
  = Some (join " "
      ([dq +:+ name +:+ dq; str ty]
       ++ (if flag_set d "primary_key" then ["PRIMARY KEY"] else [])
       ++ (if explicitly_non_nullable d then ["NOT NULL"] else [])
       ++ match d !! "default" with
          | Some v =>
              if decide (v = SNull) then [] else ["DEFAULT " +:+ spec_default v]
          | None => []
          end
       ++ (if String.eqb dialect "sqlite" && flag_set d "autoincrement"
           then ["AUTOINCREMENT"] else [])))
  ∧ (∀ s, spec_default (SStr s)
          = if ci_startswith s "CURRENT_" then s else "'" +:+ s +:+ "'")
  ∧ (∀ v, (∀ s, v ≠ SStr s) → spec_default v = str v).
Proof.
  intros Hty. split; [by apply column_sql_parts|]. split; [done|].
  intros [| | |s] Hv; try done. by destruct (Hv s).
Qed.

Lemma column_sql_order_witness :
  column_sql "created" col_created "postgres"
  = Some (dq +:+ "created" +:+ dq
          +:+ " TIMESTAMP NOT NULL DEFAULT current_timestamp")
  ∧ column_sql "n" col_counter "sqlite"
    = Some (dq +:+ "n" +:+ dq +:+ " INTEGER PRIMARY KEY DEFAULT 0 AUTOINCREMENT")
  ∧ column_sql "n" col_counter "postgres"
    = Some (dq +:+ "n" +:+ dq +:+ " INTEGER PRIMARY KEY DEFAULT 0")
  ∧ column_sql "body" col_text_nn "sqlite"
    = Some (dq +:+ "body" +:+ dq +:+ " TEXT NOT NULL DEFAULT 'x'").
Proof.
  split; [|split; [|split]].
  - rewrite (proj1 (column_sql_order "created" (SStr "TIMESTAMP") col_created
                      "postgres" eq_refl)). vm_compute. reflexivity.
  - rewrite (proj1 (column_sql_order "n" (SStr "INTEGER") col_counter
                      "sqlite" eq_refl)). vm_compute. reflexivity.
  - rewrite (proj1 (column_sql_order "n" (SStr "INTEGER") col_counter
                      "postgres" eq_refl)). vm_compute. reflexivity.
  - rewrite (proj1 (column_sql_order "body" (SStr "TEXT") col_text_nn
                      "sqlite" eq_refl)). vm_compute. reflexivity.
Defined.

(** ** SQLite emitter: column changes *)

Lemma has_nl_app a b : has_nl (a +:+ b) = has_nl a || has_nl b.
Proof.
  induction a as [|c a IH]; simpl; [done|]. rewrite IH. apply orb_assoc.
Qed.

Lemma quoted_path_one_line op :
  has_nl (table op) = false → has_nl (str_opt (column op)) = false →
  has_nl (quoted_path op) = false.
Proof.
  intros Ht Hc. unfold quoted_path. rewrite !has_nl_app, Ht, Hc. done.
Qed.

(** C7. For a [drop_column] or [alter_column] operation the SQLite emitter
    returns, in the up and in the down direction, exactly one statement;
    it begins with [--], so it does not begin with [ALTER] or [DROP]; and
    when the table and column names hold no line feed the statement is
    one line, a comment to its end. *)
Theorem sqlite_column_change_is_comment (op : Operation) :
  op_type op = "drop_column" ∨ op_type op = "alter_column" →
  ∃ up down,
    sqlite_up_sql op = Some [up] ∧ sqlite_down_sql op = Some [down]
    ∧ startswith up "--" = true ∧ startswith down "--" = true
    ∧ startswith up "ALTER" = false ∧ startswith up "DROP" = false
    ∧ startswith down "ALTER" = false ∧ startswith down "DROP" = false
    ∧ (has_nl (table op) = false → has_nl (str_opt (column op)) = false →
       has_nl up = false ∧ has_nl down = false).
Proof.
  intros Hkind. unfold sqlite_up_sql, sqlite_down_sql.
  destruct Hkind as [-> | ->]; simpl; eexists _, _;
    (split; [reflexivity|]); (split; [reflexivity|]);
    repeat (split; [reflexivity|]);
    intros Ht Hc; rewrite !has_nl_app, (quoted_path_one_line op Ht Hc); done.
Qed.

Lemma sqlite_column_change_is_comment_witness :
  ∃ up down,
    sqlite_up_sql op_drop_email = Some [up]
    ∧ sqlite_down_sql op_drop_email = Some [down]
    ∧ startswith up "--" = true ∧ startswith down "--" = true
    ∧ startswith up "ALTER" = false ∧ startswith up "DROP" = false
    ∧ startswith down "ALTER" = false ∧ startswith down "DROP" = false
    ∧ (has_nl (table op_drop_email) = false →
       has_nl (str_opt (column op_drop_email)) = false →
       has_nl up = false ∧ has_nl down = false).
Proof.
  apply (sqlite_column_change_is_comment op_drop_email). left. reflexivity.
Defined.

(** ** Report assembler: SQL mode *)

Section assembler.

Lemma mapM_cons_option {A B} (f : A → option B) x xs :
  mapM f (x :: xs) = y ← f x; ys ← mapM f xs; Some (y :: ys).
Proof. done. Qed.

Lemma mapM_app_option {A B} (f : A → option B) l1 l2 :
  mapM f (l1 ++ l2) = k1 ← mapM f l1; k2 ← mapM f l2; Some (k1 ++ k2).
Proof.
  induction l1 as [|x l1 IH].
  - simpl. by destruct (mapM f l2).
  - rewrite <- app_comm_cons, !mapM_cons_option, IH.
    destruct (f x) as [y|]; simpl; [|done].
    destruct (mapM f l1) as [k1|]; simpl; [|done].
    by destruct (mapM f l2).
Qed.

Lemma for_each_cons {A S} (body : S → A → option S) x xs s :
  for_each (x :: xs) body s = s' ← body s x; for_each xs body s'.
Proof. done. Qed.

(** The loop of [render_sql] from any two line lists. *)
Lemma emit_loop dialect ops (u0 d0 : list string) :
  for_each ops (emit_body dialect) (u0, d0)
  = ups ← mapM (up_sql dialect) ops;
    downs ← mapM (down_sql dialect) ops;
    Some (u0 ++ concat ups, d0 ++ concat downs).
Proof.
  revert u0 d0. induction ops as [|op ops IH]; intros u0 d0.
  - simpl. by rewrite !app_nil_r.
  - rewrite !mapM_cons_option, for_each_cons.
    assert (emit_body dialect (u0, d0) op
            = u ← up_sql dialect op; d ← down_sql dialect op;
              Some (u0 ++ u, d0 ++ d)) as ->.
    { unfold emit_body, up_sql, down_sql.
      by destruct (String.eqb dialect "postgres"). }
    destruct (up_sql dialect op) as [u|]; simpl; [|done].
    destruct (down_sql dialect op) as [d|]; simpl.
    + rewrite IH. destruct (mapM (up_sql dialect) ops) as [ups|]; simpl; [|done].
      destruct (mapM (down_sql dialect) ops) as [downs|]; simpl; [|done].
      by rewrite <- !app_assoc.
    + by destruct (mapM (up_sql dialect) ops).
Qed.

Lemma render_sql_unfold ops dialect :
  render_sql ops dialect
  = ups ← mapM (up_sql dialect) ops;
    downs ← mapM (down_sql dialect) ops;
    Some (join nl (header ++ concat ups ++ separator
                   ++ reverse (concat downs) ++ [""])).
Proof.
  unfold render_sql. rewrite emit_loop.
  destruct (mapM (up_sql dialect) ops) as [ups|]; simpl; [|done].
  by destruct (mapM (down_sql dialect) ops).
Qed.

Lemma reverse_concat {A} (ls : list (list A)) :
  reverse (concat ls) = concat (reverse <$> reverse ls).
Proof.
  induction ls as [|l ls IH]; simpl; [done|].
  rewrite reverse_app, reverse_cons, fmap_app, concat_app, IH. simpl.
  by rewrite app_nil_r.
Qed.

End assembler.

(** The document does not always keep a down block in its own statement
    order: on the diff of [schema_a] and [schema_b] for Postgres the
    [alter_column] has a three-statement down block, and the rendering
    differs from the blockwise one. *)
Lemma render_sql_blockwise_counterexample :
  ¬ (∀ ops dialect, render_sql ops dialect = blockwise_render_sql ops dialect).
Proof.
  intros H. specialize (H (diff_layout schema_a schema_b) "postgres").
  vm_compute in H. discriminate H.
Qed.

(** C1, amended.  The rendered document is the header, every up statement
    in operation order, the separator, and then the list of all down
    statements reversed statement by statement: the blocks come in reverse
    operation order, and the statements of a block in reverse order too. *)
Theorem render_sql_order (ops : list Operation) (dialect : string) :
  render_sql ops dialect
  = ups ← mapM (up_sql dialect) ops;
    downs ← mapM (down_sql dialect) ops;
    Some (join nl (header ++ concat ups ++ separator
                   ++ concat (reverse <$> reverse downs) ++ [""])).
Proof.
  rewrite render_sql_unfold.
  destruct (mapM (up_sql dialect) ops) as [ups|]; simpl; [|done].
  destruct (mapM (down_sql dialect) ops) as [downs|]; simpl; [|done].
  by rewrite reverse_concat.
Qed.

(** ** Totality *)

Section totality.

Lemma wf_cols_of s t c :
  wf_schema s → c ∈ dom (cols_of (tables s) t) →
  is_Some ((cols_of (tables s) t !!! c) !! "type").
Proof.
  intros Hwf Hc. pose proof (cols_of_Some _ _ _ Hc) as Hcols.
  destruct (tables s !! t) as [d|] eqn:Hd; simpl in Hcols; [|done].
  destruct (wf_schema_columns _ _ _ Hwf Hd) as (cs & Hcs & Hwfc).
  rewrite Hcs in Hcols. injection Hcols as Hcols. rewrite <- Hcols in *.
  apply elem_of_dom in Hc as [def Hdef].
  rewrite (lookup_total_correct _ _ _ Hdef). by apply (Hwfc c def).
Qed.

Lemma create_table_sql_is_Some op dialect cs :
  columns_of (payload op) = Some cs → wf_cols cs →
  is_Some (create_table_sql op dialect).
Proof.
  intros Hcols Hwf. unfold create_table_sql.
  unfold columns_of in Hcols. rewrite Hcols. simpl.
  destruct (mapM _ (sorted_keys cs)) as [rendered|] eqn:E; simpl; [eauto|].
  exfalso. apply mapM_None_1, Exists_exists in E as (name & Hin & Hnone).
  apply elem_of_sorted, elem_of_dom in Hin as [d Hd].
  rewrite Hd in Hnone. simpl in Hnone.
  destruct (column_sql_is_Some name d dialect (Hwf name d Hd)) as [x Hx].
  by rewrite Hx in Hnone.
Qed.

Lemma add_column_sql_is_Some op dialect (d : ColDef) :
  payload op !! "column_def" = Some (ACol d) → is_Some (d !! "type") →
  is_Some (add_column_sql op dialect).
Proof.
  intros Hp Hty. unfold add_column_sql. rewrite Hp. simpl.
  destruct (column_sql_is_Some (default "" (column op)) d dialect Hty) as [x ->].
  simpl. eauto.
Qed.

Lemma pg_alter_lines_is_Some op key (d : ColDef) :
  payload op !! key = Some (ACol d) → is_Some (d !! "type") →
  is_Some (pg_alter_lines op key).
Proof.
  intros Hp [ty Hty]. unfold pg_alter_lines. rewrite Hp. simpl. rewrite Hty.
  simpl. eauto.
Qed.

(** Every operation of a diff of well-formed schemas renders in every
    emitter. *)
Lemma diff_layout_renderable source target op :
  wf_schema source → wf_schema target → op ∈ diff_layout source target →
  is_Some (pg_up_sql op) ∧ is_Some (pg_down_sql op)
  ∧ is_Some (sqlite_up_sql op) ∧ is_Some (sqlite_down_sql op).
Proof.
  intros Hs Ht [(t & Hin & ->)|[(t & _ & ->)|(t & _ & Hop)]]%elem_of_diff_layout.
  - apply elem_of_difference in Hin as [[d Hd]%elem_of_dom _].
    destruct (wf_schema_columns _ _ _ Ht Hd) as (cs & Hcs & Hwf).
    assert (columns_of (payload (create_table_op (tables target) t)) = Some cs).
    { simpl. by rewrite (lookup_total_correct _ _ _ Hd). }
    unfold pg_up_sql, pg_down_sql, sqlite_up_sql, sqlite_down_sql. simpl.
    eauto 10 using create_table_sql_is_Some.
  - unfold pg_up_sql, pg_down_sql, sqlite_up_sql, sqlite_down_sql. simpl. eauto 10.
  - apply elem_of_columns_block in Hop
      as [(c & Hc & ->)|[(c & _ & ->)|(c & Hc & _ & ->)]];
      unfold pg_up_sql, pg_down_sql, sqlite_up_sql, sqlite_down_sql; simpl.
    + apply elem_of_difference in Hc as [Hc _].
      pose proof (wf_cols_of _ _ _ Ht Hc) as Hty.
      repeat split; eauto; by eapply add_column_sql_is_Some.
    + eauto 10.
    + apply elem_of_intersection in Hc as [Hcs Hct].
      pose proof (wf_cols_of _ _ _ Hs Hcs) as Hsty.
      pose proof (wf_cols_of _ _ _ Ht Hct) as Htty.
      repeat split; eauto; by eapply pg_alter_lines_is_Some.
Qed.

Lemma render_sql_is_Some ops dialect :
  (∀ op, op ∈ ops →
     is_Some (pg_up_sql op) ∧ is_Some (pg_down_sql op)
     ∧ is_Some (sqlite_up_sql op) ∧ is_Some (sqlite_down_sql op)) →
  is_Some (render_sql ops dialect).
Proof.
  intros Hops. rewrite render_sql_unfold.
  destruct (mapM_is_Some_2 (up_sql dialect) ops) as [ups ->].
  { apply Forall_forall. intros op Hop. simpl. unfold up_sql.
    destruct (Hops op Hop) as (? & ? & ? & ?). by destruct (String.eqb _ _). }
  destruct (mapM_is_Some_2 (down_sql dialect) ops) as [downs ->].
  { apply Forall_forall. intros op Hop. simpl. unfold down_sql.
    destruct (Hops op Hop) as (? & ? & ? & ?). by destruct (String.eqb _ _). }
  simpl. eauto.
Qed.

Lemma unknown_kind_emitters op :
  unknown_kind op →
  pg_up_sql op = Some [unsupported op] ∧ pg_down_sql op = Some [unsupported op]
  ∧ sqlite_up_sql op = Some [unsupported op]
  ∧ sqlite_down_sql op = Some [unsupported op].
Proof.
  unfold unknown_kind. rewrite !not_elem_of_cons.
  intros (H1 & H2 & H3 & H4 & H5 & _).
  apply String.eqb_neq in H1, H2, H3, H4, H5.
  unfold pg_up_sql, pg_down_sql, sqlite_up_sql, sqlite_down_sql.
  by rewrite H1, H2, H3, H4, H5.
Qed.

Lemma unknown_kind_up_down op dialect :
  unknown_kind op →
  up_sql dialect op = Some [unsupported op]
  ∧ down_sql dialect op = Some [unsupported op].
Proof.
  intros (? & ? & ? & ?)%unknown_kind_emitters. unfold up_sql, down_sql.
  by destruct (String.eqb dialect "postgres").
Qed.

End totality.

(** C8. On well-formed schemas the diff returns an operation list and its
    rendering in full SQL mode returns a document, for every dialect: no
    lookup fails.  An operation whose kind is none of the five renders in
    each of the four emitters as the one comment line naming the kind, and
    inside an operation list it contributes that line to the up and to the
    down statements while the operations before and after it render as
    they do without it. *)
Theorem diff_render_total :
  (∀ source target dialect, wf_schema source → wf_schema target →
     ∃ ops out, diff_schemas source target = Some ops
                ∧ render_sql ops dialect = Some out)
  ∧ (∀ op, unknown_kind op →
       pg_up_sql op = Some ["-- unsupported operation: " +:+ op_type op]
       ∧ pg_down_sql op = Some ["-- unsupported operation: " +:+ op_type op]
       ∧ sqlite_up_sql op = Some ["-- unsupported operation: " +:+ op_type op]
       ∧ sqlite_down_sql op = Some ["-- unsupported operation: " +:+ op_type op])
  ∧ (∀ dialect before after op ub db ua da, unknown_kind op →
       mapM (up_sql dialect) before = Some ub →
       mapM (down_sql dialect) before = Some db →
       mapM (up_sql dialect) after = Some ua →
       mapM (down_sql dialect) after = Some da →
       render_sql (before ++ op :: after) dialect
       = Some (join nl
           (header ++ (concat ub ++ [unsupported op] ++ concat ua) ++ separator
            ++ reverse (concat db ++ [unsupported op] ++ concat da) ++ [""]))).
Proof.
  split; [|split].
  - intros source target dialect Hs Ht.
    destruct (render_sql_is_Some (diff_layout source target) dialect) as [out Hout].
    { intros op Hop. by apply (diff_layout_renderable source target). }
    exists (diff_layout source target), out. by rewrite diff_schemas_wf.
  - apply unknown_kind_emitters.
  - intros dialect before after op ub db ua da Hop Hub Hdb Hua Hda.
    destruct (unknown_kind_up_down op dialect Hop) as [Hu Hd].
    rewrite render_sql_unfold, !mapM_app_option, !mapM_cons_option.
    rewrite Hub, Hdb, Hua, Hda, Hu, Hd. simpl.
    by rewrite !concat_app.
Qed.

Lemma diff_render_total_witness :
  (∃ ops out, diff_schemas schema_a schema_b = Some ops
              ∧ render_sql ops "sqlite" = Some out)
  ∧ pg_up_sql op_rename = Some ["-- unsupported operation: rename_table"]
  ∧ render_sql ([op_drop_email] ++ op_rename :: [drop_table_op "posts"]) "postgres"
    = Some (join nl
        (header
         ++ (concat [[drop_column_sql op_drop_email]] ++ [unsupported op_rename]
             ++ concat [[drop_table_sql (drop_table_op "posts")]])
         ++ separator
         ++ reverse
              (concat [["-- manual rollback required: re-add dropped column "
                        +:+ quoted_path op_drop_email]]
               ++ [unsupported op_rename]
               ++ concat [["-- manual rollback required: recreate dropped table "
                           +:+ dq +:+ "posts" +:+ dq]])
         ++ [""])).
Proof.
  assert (unknown_kind op_rename) as Hunknown by by_compute.
  split; [|split].
  - apply (proj1 diff_render_total schema_a schema_b "sqlite"); by_compute.
  - apply (proj1 (proj1 (proj2 diff_render_total) op_rename Hunknown)).
  - apply (proj2 (proj2 diff_render_total) "postgres" [op_drop_email]
             [drop_table_op "posts"] op_rename); [exact Hunknown|reflexivity..].
Defined.

(** ** Report assembler: dry-run mode *)

Section dry_run.

Lemma count_kind_cons kind op ops :
  count_kind kind (op :: ops)
  = (if decide (op_type op = kind) then 1 else 0) + count_kind kind ops.
Proof. unfold count_kind. rewrite filter_cons. by case_decide. Qed.

Lemma count_destructive_cons op ops :
  count_destructive (op :: ops)
  = (if destructive op then 1 else 0) + count_destructive ops.
Proof.
  unfold count_destructive. rewrite filter_cons.
  case_decide as H; [by rewrite H|]. by destruct (destructive op).
Qed.

(** The counting loop from any dict and counter. *)
Lemma count_loop ops (m : gmap string nat) (n : nat) :
  ∃ by_type,
    foldl count_body (m, n) ops = (by_type, n + count_destructive ops)
    ∧ ∀ kind, by_type !! kind
        = if decide (count_kind kind ops = 0) then m !! kind
          else Some (default 0 (m !! kind) + count_kind kind ops).
Proof.
  revert m n. induction ops as [|op ops IH]; intros m n; simpl.
  - exists m. split; [by rewrite Nat.add_0_r|]. done.
  - destruct (IH (<[op_type op := default 0 (m !! op_type op) + 1]> m)
                 (if destructive op then n + 1 else n)) as (bt & Hfold & Hbt).
    exists bt. split.
    + rewrite Hfold, count_destructive_cons. f_equal.
      destruct (destructive op); lia.
    + intros kind. rewrite Hbt, count_kind_cons.
      destruct (decide (op_type op = kind)) as [->|Hne].
      * rewrite lookup_insert_eq. simpl.
        destruct (decide (count_kind kind ops = 0)) as [->|?]; simpl.
        -- f_equal; lia.
        -- f_equal; lia.
      * rewrite lookup_insert_ne by done. done.
Qed.

Lemma count_kind_zero kind ops : count_kind kind ops = 0 ↔ kind ∉ kinds ops.
Proof.
  unfold kinds. rewrite elem_of_list_to_set, list_elem_of_fmap.
  induction ops as [|op ops IH].
  - split; [|done]. intros _ (op & _ & ?%not_elem_of_nil). done.
  - rewrite count_kind_cons. case_decide as Hk.
    + split; [done|]. intros []. exists op. split; [done|left].
    + simpl. rewrite IH. split.
      * intros Hno (op' & -> & [->|Hin]%elem_of_cons); [done|]. apply Hno. eauto.
      * intros Hno (op' & -> & Hin). apply Hno. exists op'. split; [done|by right].
Qed.

Lemma dry_run_summary_spec ops : dry_run_summary ops = Some (spec_summary ops).
Proof.
  unfold dry_run_summary, spec_summary.
  destruct (count_loop ops ∅ 0) as (bt & -> & Hbt). simpl.
  assert (dom bt = kinds ops) as Hdom.
  { apply set_eq. intros kind. rewrite elem_of_dom, Hbt.
    case_decide as Hz.
    - rewrite lookup_empty. apply count_kind_zero in Hz.
      split; [by intros [? [=]]|done].
    - split; [|eauto]. intros _. apply dec_stable. by rewrite <- count_kind_zero. }
  rewrite (for_each_total _
    (λ kind, ["  " +:+ kind +:+ ": " +:+ pretty (count_kind kind ops)])); last first.
  { intros acc kind Hin. apply elem_of_sorted in Hin. rewrite Hbt.
    rewrite decide_False; [by rewrite lookup_empty|].
    rewrite count_kind_zero. rewrite <- Hdom. by intros []. }
  simpl. unfold sorted_keys. by rewrite Hdom, concat_fmap_singleton.
Qed.

End dry_run.

(** C9. The dry-run summary of an operation list is its title line, the
    total operation count, one count line per kind that occurs, in sorted
    kind order, and the count of the operations flagged destructive.  The
    driver in dry-run mode returns the same outcome for any two dialects:
    the summary is built from the operations alone, and no emitter runs. *)
Theorem dry_run_summary_counts :
  (∀ ops, dry_run_summary ops
     = Some (join nl
         (["Dry-run summary:"; "  total_operations: " +:+ pretty (length ops)]
          ++ ((λ kind, "  " +:+ kind +:+ ": " +:+ pretty (count_kind kind ops))
                <$> sorted (kinds ops))
          ++ ["  destructive_operations: "
              +:+ pretty (count_destructive ops)])))
  ∧ (∀ source target dialect1 dialect2 allow_destructive,
       run source target dialect1 true allow_destructive
       = run source target dialect2 true allow_destructive)
  ∧ (∀ source target dialect ops,
       diff_schemas source target = Some ops →
       run source target dialect true true
       = Some (Output (spec_summary ops))).
Proof.
  split; [apply dry_run_summary_spec|]. split; [done|].
  intros source target dialect ops Hdiff. unfold run. rewrite Hdiff. simpl.
  rewrite andb_false_r. by rewrite dry_run_summary_spec.
Qed.

Lemma dry_run_summary_counts_witness :
  run schema_b schema_c "sqlite" true true
  = Some (Output (join nl
      ["Dry-run summary:"; "  total_operations: 3"; "  add_column: 1";
       "  alter_column: 1"; "  drop_column: 1"; "  destructive_operations: 1"])).
Proof.
  rewrite (proj2 (proj2 dry_run_summary_counts) schema_b schema_c "sqlite"
             (diff_layout schema_b schema_c)).
  - vm_compute. reflexivity.
  - vm_compute. reflexivity.
Defined.

(** ** Scenarios of the specification *)

(** Adding a table yields exactly one [create_table], whose Postgres up
    statement creates the table. *)
Example scenario_add_table :
  diff_schemas schema_users schema_users_posts
  = Some [create_table_op (tables schema_users_posts) "posts"]
  ∧ pg_up_sql (create_table_op (tables schema_users_posts) "posts")
    = Some ["CREATE TABLE " +:+ dq +:+ "posts" +:+ dq +:+ " (" +:+ nl
            +:+ "  " +:+ dq +:+ "id" +:+ dq +:+ " INTEGER PRIMARY KEY" +:+ nl
            +:+ ");"].
Proof. split; vm_compute; reflexivity. Qed.

(** Tightening nullability yields one destructive [alter_column], and the
    driver halts on it unless destructive operations are allowed. *)
Example scenario_tighten_nullability :
  (∃ op, diff_schemas schema_a schema_a_required = Some [op]
         ∧ op_type op = "alter_column" ∧ destructive op = true)
  ∧ run schema_a schema_a_required "postgres" false false
    = Some (Halted ["  - alter_column: users.email"]).
Proof.
  split; [|vm_compute; reflexivity].
  exists (alter_column_op "users" cols_a
            {[ "id" := col_int_pk; "email" := col_text_required ]} "email").
  split; [vm_compute; reflexivity|]. split; reflexivity.
Qed.

(** The down section of a Postgres [alter_column] comes out in the reverse
    of the order the emitter builds it in. *)
Example scenario_alter_down_order :
  pg_down_sql (alter_column_op "users" cols_a cols_b "email")
  = Some [alter_prefix op_drop_email +:+ "TYPE TEXT;";
          alter_prefix op_drop_email +:+ "DROP NOT NULL;";
          alter_prefix op_drop_email +:+ "DROP DEFAULT;"]
  ∧ render_sql [alter_column_op "users" cols_a cols_b "email"] "postgres"
    = Some (join nl
        ["-- Generated by database-migration-generator"; "-- UP";
         alter_prefix op_drop_email +:+ "TYPE TEXT;";
         alter_prefix op_drop_email +:+ "SET NOT NULL;";
         alter_prefix op_drop_email +:+ "SET DEFAULT 'x';";
         ""; "-- DOWN";
         alter_prefix op_drop_email +:+ "DROP DEFAULT;";
         alter_prefix op_drop_email +:+ "DROP NOT NULL;";
         alter_prefix op_drop_email +:+ "TYPE TEXT;";
         ""]).
Proof. split; vm_compute; reflexivity. Qed.

(** * Further definitions *)

(** ** Vocabulary of the further properties *)

(** A table dict without a [columns] key. *)
Definition schema_posts_bare : Schema := {| tables := {[ "posts" := ∅ ]} |}.

(** Some operation of [ops] has this kind, table and column. *)
Definition has_column_op (kind t c : string) (ops : list Operation) : Prop :=
  ∃ op, op ∈ ops ∧ op_type op = kind ∧ table op = t ∧ column op = Some c.

(** What an operation acts on. *)
Definition target_of (op : Operation) : string * option string :=
  (table op, column op).

Ltac by_kind op :=
  destruct (String.eqb (op_type op) "create_table");
  [|destruct (String.eqb (op_type op) "drop_table");
    [|destruct (String.eqb (op_type op) "add_column");
      [|destruct (String.eqb (op_type op) "drop_column");
        [|destruct (String.eqb (op_type op) "alter_column")]]]].

(** [nullable] is absent or a boolean. *)
Definition nullable_typed (d : ColDef) : bool :=
  match d !! "nullable" with None | Some (SBool _) => true | _ => false end.

(** The three statements of a Postgres [alter_column] towards definition
    [d] of type [ty]. *)
Definition spec_alter_statements (op : Operation) (d : ColDef) (ty : Scalar)
  : list string :=
  [alter_prefix op +:+ "TYPE " +:+ str ty +:+ ";";
   alter_prefix op
   +:+ (if explicitly_non_nullable d then "SET NOT NULL;" else "DROP NOT NULL;");
   alter_prefix op
   +:+ match d !! "default" with
       | Some v => if decide (v = SNull) then "DROP DEFAULT;"
                   else "SET DEFAULT " +:+ spec_default v +:+ ";"
       | None => "DROP DEFAULT;"
       end].

Definition op_alter_email : Operation :=
  alter_column_op "users" cols_a cols_b "email".

(** The sum of the counts a dict holds. *)
Definition dict_total (m : gmap string nat) : nat :=
  map_fold (λ _ n acc, n + acc) 0 m.

(** No column definition the operation carries has the flag set. *)
Definition no_autoincrement (op : Operation) : Prop :=
  (∀ cs, columns_of (payload op) = Some cs →
         map_Forall (λ _ (d : ColDef), flag_set d "autoincrement" = false) cs)
  ∧ (∀ d, payload op !! "column_def" = Some (ACol d) →
          flag_set d "autoincrement" = false).

Definition op_create_posts : Operation :=
  {| op_type := "create_table"; table := "posts"; column := None;
     payload := {[ "columns" := ACols {[ "id" := col_int_pk ]} ]};
     destructive := false |}.

(** * The loader and the driver *)

(** ** Parsed JSON and exceptions *)

(** What [json.loads] returns.  An object keeps its members in file order,
    each key once, as a Python dict does; numbers are integers. *)
#[local] Unset Elimination Schemes.
Inductive Json : Type :=
| JNull
| JBool (b : bool)
| JNum (z : Z)
| JStr (s : string)
| JArr (items : list Json)
| JObj (members : list (string * Json)).
#[local] Set Elimination Schemes.

(** The exceptions that leave [load_schema]: the [ValueError] it raises
    itself, and the [AttributeError] of calling [.get] on a value that is
    not a dict. *)
Inductive exn : Type :=
| ValueError (msg : string)
| AttributeError.

Inductive result (A : Type) : Type :=
| Ok (a : A)
| Raise (e : exn).
Arguments Ok {A} a.
Arguments Raise {A} e.

(** [d.get(k)] on the members of a dict. *)
Fixpoint jget (k : string) (members : list (string * Json)) : Json :=
  match members with
  | [] => JNull
  | (k', v) :: rest => if String.eqb k' k then v else jget k rest
  end.

(** [k in d] *)
Fixpoint jhas (k : string) (members : list (string * Json)) : bool :=
  match members with
  | [] => false
  | (k', _) :: rest => String.eqb k' k || jhas k rest
  end.

(** [for x in xs: body], stopping at the first exception. *)
Fixpoint check_each {A : Type} (xs : list A) (body : A → result unit)
  : result unit :=
  match xs with
  | [] => Ok tt
  | x :: xs' => match body x with
                | Ok _ => check_each xs' body
                | Raise e => Raise e
                end
  end.

(** ** [load_schema] *)

(** The body of the loop over [columns.items()]. *)
Definition check_column (table_name : string) (col : string * Json)
  : result unit :=
  let '(col_name, col_def) := col in
  match col_def with
  | JObj attrs =>
      if negb (jhas "type" attrs) then
        Raise (ValueError ("column '" +:+ table_name +:+ "." +:+ col_name
                           +:+ "' missing 'type'"))
      else Ok tt
  | _ => Raise (ValueError ("column '" +:+ table_name +:+ "." +:+ col_name
                            +:+ "' must be an object"))
  end.

(** The body of the loop over [tables.items()]. *)
Definition check_table (tab : string * Json) : result unit :=
  let '(table_name, table_def) := tab in
  match table_def with
  | JObj members =>
      match jget "columns" members with
      | JObj columns => check_each columns (check_column table_name)
      | _ => Raise (ValueError ("table '" +:+ table_name
                                +:+ "' must contain object key 'columns'"))
      end
  | _ => Raise (ValueError ("table '" +:+ table_name +:+ "' must be an object"))
  end.

Section loader.

(** The file system and the JSON parser are outside the program:
    [path_exists] is [Path(path).exists()], and [read_json path] is
    [json.loads(p.read_text(encoding="utf-8"))], either the message of the
    [JSONDecodeError] or the parsed value. *)
Variable path_exists : string → bool.
Variable read_json : string → string + Json.

Definition load_schema (path : string) : result Json :=
  if negb (path_exists path) then
    Raise (ValueError ("schema file not found: " +:+ path))
  else
    match read_json path with
    | inl exc => Raise (ValueError ("invalid JSON in " +:+ path +:+ ": " +:+ exc))
    | inr raw =>
        match raw with
        | JObj top =>
            match jget "tables" top with
            | JObj tables =>
                match check_each tables check_table with
                | Ok _ => Ok raw
                | Raise e => Raise e
                end
            | _ => Raise (ValueError (path +:+ " must contain object key 'tables'"))
            end
        | _ => Raise AttributeError
        end
    end.

End loader.

(** The shape [load_schema] accepts. *)
Definition column_ok (col : string * Json) : Prop :=
  ∃ attrs, col.2 = JObj attrs ∧ jhas "type" attrs = true.

Definition table_ok (tab : string * Json) : Prop :=
  ∃ members columns,
    tab.2 = JObj members ∧ jget "columns" members = JObj columns
    ∧ Forall column_ok columns.

Definition schema_ok (raw : Json) : Prop :=
  ∃ top tables,
    raw = JObj top ∧ jget "tables" top = JObj tables ∧ Forall table_ok tables.

Definition json_users_ok : Json :=
  JObj [("tables", JObj [("users", JObj [("columns",
     JObj [("id", JObj [("type", JStr "INTEGER")])])])])].

Definition json_two_bad : Json :=
  JObj [("tables", JObj [("users", JObj [("columns",
                            JObj [("id", JObj [("type", JStr "INTEGER")])])]);
                         ("posts", JObj [("columns",
                            JObj [("id", JObj [("kind", JStr "INTEGER")])])]);
                         ("tags", JNum 3)])].

(** ** [main] *)

(** The parsed command line. *)
Record Args : Type := {
  from_file : string;
  to_file : string;
  dialect : string;
  out : option string;
  dry_run : bool;
  allow_destructive : bool
}.

(** What a run of [main] that returns leaves behind: the exit code, the
    text printed to standard output and to standard error, and the file
    written, if any, with its content. *)
Record Run : Type := {
  exit_code : Z;
  stdout : string;
  stderr : string;
  written : option (string * string)
}.

(** [print(line, file=sys.stderr)] for each line: every line is followed by
    a line feed. *)
Definition print_lines (lines : list string) : string :=
  String.concat "" ((λ line, line +:+ nl) <$> lines).

Section driver.

(** [load_schema] with the schema it returns read into the data model of
    the diff engine. *)
Variable loader : string → result Schema.

(** [main]; [None] is an exception that leaves it uncaught. *)
Definition main (args : Args) : option Run :=
  match loader (from_file args) with
  | Raise (ValueError exc) =>
      Some {| exit_code := 1; stdout := "";
              stderr := print_lines ["Error: " +:+ exc]; written := None |}
  | Raise AttributeError => None
  | Ok source =>
      match loader (to_file args) with
      | Raise (ValueError exc) =>
          Some {| exit_code := 1; stdout := "";
                  stderr := print_lines ["Error: " +:+ exc]; written := None |}
      | Raise AttributeError => None
      | Ok target =>
          operations ← diff_schemas source target;
          let destructive_ops := filter (λ op, destructive op = true) operations in
          if negb (bool_decide (destructive_ops = []))
             && negb (allow_destructive args) then
            Some {| exit_code := 2; stdout := "";
                    stderr := print_lines
                      ("Error: destructive operations detected. Re-run with --allow-destructive."
                       :: (describe <$> destructive_ops));
                    written := None |}
          else
            output ← (if dry_run args then dry_run_summary operations
                      else render_sql operations (dialect args));
            match out args with
            | Some path =>
                if negb (String.eqb path "") then
                  Some {| exit_code := 0; stdout := ""; stderr := "";
                          written := Some (path, output +:+ nl) |}
                else
                  Some {| exit_code := 0; stdout := output +:+ nl; stderr := "";
                          written := None |}
            | None =>
                Some {| exit_code := 0; stdout := output +:+ nl; stderr := "";
                        written := None |}
            end
      end
  end.

End driver.

(** [args] with another [--out]. *)
Definition with_out (args : Args) (o : option string) : Args :=
  {| from_file := from_file args; to_file := to_file args;
     dialect := dialect args; out := o; dry_run := dry_run args;
     allow_destructive := allow_destructive args |}.

Definition halt_header : string :=
  "Error: destructive operations detected. Re-run with --allow-destructive.".

(** A loader for the examples: two files, [a.json] and [b.json]. *)
Definition loader_ab (path : string) : result Schema :=
  if String.eqb path "a.json" then Ok schema_a
  else if String.eqb path "b.json" then Ok schema_b
  else Raise (ValueError ("schema file not found: " +:+ path)).

Definition args_ab : Args :=
  {| from_file := "a.json"; to_file := "b.json"; dialect := "postgres";
     out := None; dry_run := false; allow_destructive := false |}.

(** The arguments of a dry run that allows destructive operations. *)
Definition args_ab_allow : Args :=
  {| from_file := "a.json"; to_file := "b.json"; dialect := "sqlite";
     out := None; dry_run := true; allow_destructive := true |}.

(** ** From the parsed file to the data model of the diff engine *)

(** A JSON scalar as an attribute value. *)
Definition to_scalar (j : Json) : option Scalar :=
  match j with
  | JNull => Some SNull
  | JBool b => Some (SBool b)
  | JNum z => Some (SInt z)
  | JStr s => Some (SStr s)
  | _ => None
  end.

(** The members of an object as a dict, each value read by [g], which may
    look at the key.  Of two members with one key the first counts, as
    for [jget]. *)
Definition to_dict {V : Type} (g : string → Json → option V)
    (members : list (string * Json)) : option (gmap string V) :=
  list_to_map <$> mapM (λ kv, v ← g kv.1 kv.2; Some (kv.1, v)) members.

Definition to_coldef (j : Json) : option ColDef :=
  match j with
  | JObj attrs => to_dict (λ _, to_scalar) attrs
  | _ => None
  end.

(** A member of a table dict: the [columns] mapping, or scalar metadata. *)
Definition to_table_value (k : string) (j : Json) : option Any :=
  if String.eqb k "columns" then
    match j with
    | JObj columns => ACols <$> to_dict (λ _, to_coldef) columns
    | _ => None
    end
  else AScalar <$> to_scalar j.

Definition to_table (j : Json) : option Dict :=
  match j with
  | JObj members => to_dict to_table_value members
  | _ => None
  end.

(** The schema a parsed file stands for, where the data model can hold it
    (scalar attributes and scalar table metadata). *)
Definition to_schema (raw : Json) : option Schema :=
  match raw with
  | JObj top =>
      match jget "tables" top with
      | JObj tabs => (λ m, {| tables := m |}) <$> to_dict (λ _, to_table) tabs
      | _ => None
      end
  | _ => None
  end.

Definition json_users_pk : Json :=
  JObj [("tables", JObj [("users", JObj [("columns",
     JObj [("id", JObj [("type", JStr "INTEGER");
                        ("primary_key", JBool true)])])])])].

(** * Further properties of the code *)

(** ** Diff engine: failure, disjoint schemas, membership *)

Section diff_more.

Lemma table_block_opt_None src tgt t :
  table_block_opt src tgt t = None
  ↔ src !! t ≫= columns_of = None ∨ tgt !! t ≫= columns_of = None.
Proof.
  unfold table_block_opt.
  destruct (src !! t ≫= columns_of) as [sc|]; simpl; [|by split; [left|]].
  destruct (tgt !! t ≫= columns_of) as [tc|]; simpl; [|by split; [right|]].
  split; [done|]. by intros [|].
Qed.

Lemma elem_of_columns_block_iff t (sc tc : gmap string ColDef) op :
  op ∈ columns_block t sc tc
  ↔ (∃ c, c ∈ dom tc ∖ dom sc ∧ op = add_column_op t tc c)
    ∨ (∃ c, c ∈ dom sc ∖ dom tc ∧ op = drop_column_op t c)
    ∨ (∃ c, c ∈ dom sc ∩ dom tc ∧ changed sc tc c = true
            ∧ op = alter_column_op t sc tc c).
Proof.
  split; [apply elem_of_columns_block|].
  unfold columns_block. rewrite !elem_of_app, !list_elem_of_fmap.
  intros [(c & Hc & ->)|[(c & Hc & ->)|(c & Hc & Hch & ->)]].
  - left. exists c. by rewrite elem_of_sorted.
  - right; left. exists c. by rewrite elem_of_sorted.
  - right; right. exists c. split; [done|].
    apply list_elem_of_filter. by rewrite elem_of_sorted.
Qed.

Lemma elem_of_diff_layout_iff source target op :
  op ∈ diff_layout source target
  ↔ (∃ t, t ∈ dom (tables target) ∖ dom (tables source)
          ∧ op = create_table_op (tables target) t)
    ∨ (∃ t, t ∈ dom (tables source) ∖ dom (tables target) ∧ op = drop_table_op t)
    ∨ (∃ t, t ∈ dom (tables source) ∩ dom (tables target)
            ∧ op ∈ table_block (tables source) (tables target) t).
Proof.
  split; [apply elem_of_diff_layout|].
  unfold diff_layout. rewrite !elem_of_app, !list_elem_of_fmap.
  intros [(t & Ht & ->)|[(t & Ht & ->)|(t & Ht & Hop)]].
  - left. exists t. by rewrite elem_of_sorted.
  - right; left. exists t. by rewrite elem_of_sorted.
  - right; right. apply elem_of_concat. exists (table_block (tables source) (tables target) t).
    split; [done|]. apply list_elem_of_fmap. exists t. by rewrite elem_of_sorted.
Qed.

Lemma diff_schemas_None_iff source target :
  diff_schemas source target = None
  ↔ ∃ t ds dt,
      tables source !! t = Some ds ∧ tables target !! t = Some dt
      ∧ (columns_of ds = None ∨ columns_of dt = None).
Proof.
  rewrite diff_schemas_unfold. split.
  - destruct (mapM _ _) as [blocks|] eqn:E; simpl; [done|]. intros _.
    apply mapM_None_1, Exists_exists in E as (t & Hin & Hnone).
    apply elem_of_sorted, elem_of_intersection in Hin as [Hs Ht].
    apply elem_of_dom in Hs as [ds Hds]. apply elem_of_dom in Ht as [dt Hdt].
    exists t, ds, dt. apply table_block_opt_None in Hnone.
    by rewrite Hds, Hdt in Hnone.
  - intros (t & ds & dt & Hds & Hdt & Hnone).
    rewrite (mapM_None_2 (table_block_opt (tables source) (tables target))); [done|].
    apply Exists_exists. exists t. split.
    + apply elem_of_sorted, elem_of_intersection. split; apply elem_of_dom; eauto.
    + apply table_block_opt_None. by rewrite Hds, Hdt.
Qed.

(** In a diff that returns, every table of both schemas has its columns. *)
Lemma diff_schemas_common_columns source target ops t :
  diff_schemas source target = Some ops →
  t ∈ dom (tables source) → t ∈ dom (tables target) →
  (tables source !! t ≫= columns_of) = Some (cols_of (tables source) t)
  ∧ (tables target !! t ≫= columns_of) = Some (cols_of (tables target) t).
Proof.
  intros Hdiff [ds Hds]%elem_of_dom [dt Hdt]%elem_of_dom.
  unfold cols_of. rewrite Hds, Hdt. simpl.
  destruct (columns_of ds) as [sc|] eqn:Es, (columns_of dt) as [tc|] eqn:Et;
    simpl; try done; exfalso;
    (assert (diff_schemas source target = None) as Hnone
       by (apply diff_schemas_None_iff; exists t, ds, dt; eauto));
    congruence.
Qed.

Lemma cols_of_eq tabs t cs :
  (tabs !! t ≫= columns_of) = Some cs → cols_of tabs t = cs.
Proof. unfold cols_of. by intros ->. Qed.

Lemma bind_columns_dom (tabs : gmap string Dict) t cs :
  (tabs !! t ≫= columns_of) = Some cs → t ∈ dom tabs.
Proof.
  destruct (tabs !! t) as [d|] eqn:E; simpl; [|done].
  intros _. apply elem_of_dom. eauto.
Qed.

(** The members of a diff that returns, with where they come from. *)
Lemma diff_schemas_elem_of source target ops op :
  diff_schemas source target = Some ops →
  op ∈ ops
  ↔ (∃ t, t ∈ dom (tables target) ∧ (t ∉ dom (tables source))
          ∧ op = create_table_op (tables target) t)
    ∨ (∃ t, t ∈ dom (tables source) ∧ (t ∉ dom (tables target))
            ∧ op = drop_table_op t)
    ∨ (∃ t sc tc c,
         (tables source !! t ≫= columns_of) = Some sc
         ∧ (tables target !! t ≫= columns_of) = Some tc
         ∧ ((c ∈ dom tc ∧ (c ∉ dom sc) ∧ op = add_column_op t tc c)
            ∨ (c ∈ dom sc ∧ (c ∉ dom tc) ∧ op = drop_column_op t c)
            ∨ (∃ src_def tgt_def,
                 sc !! c = Some src_def ∧ tc !! c = Some tgt_def
                 ∧ dict_eqb src_def tgt_def = false
                 ∧ op = alter_column_op t sc tc c))).
Proof.
  intros Hdiff. pose proof Hdiff as ->%diff_schemas_Some.
  rewrite elem_of_diff_layout_iff. split.
  - intros [(t & [??]%elem_of_difference & ->)|[(t & [??]%elem_of_difference & ->)
            |(t & [Hts Htt]%elem_of_intersection & Hop)]]; [eauto 10..|].
    right; right.
    destruct (diff_schemas_common_columns _ _ _ t Hdiff Hts Htt) as [Es Et].
    exists t, (cols_of (tables source) t), (cols_of (tables target) t).
    apply elem_of_columns_block in Hop
      as [(c & [??]%elem_of_difference & ->)|[(c & [??]%elem_of_difference & ->)
         |(c & [Hcs Hct]%elem_of_intersection & Hch & ->)]];
      exists c; (split; [done|]); (split; [done|]); [eauto..|].
    right; right.
    apply elem_of_dom in Hcs as [sd Hsd]. apply elem_of_dom in Hct as [td Htd].
    exists sd, td. repeat split; try done.
    unfold changed in Hch.
    rewrite (lookup_total_correct _ _ _ Hsd), (lookup_total_correct _ _ _ Htd) in Hch.
    by destruct (dict_eqb sd td).
  - intros [(t & ? & ? & ->)|[(t & ? & ? & ->)|(t & sc & tc & c & Es & Et & Hop)]].
    + left. exists t. by rewrite elem_of_difference.
    + right; left. exists t. by rewrite elem_of_difference.
    + right; right. exists t. split.
      { apply elem_of_intersection. eauto using bind_columns_dom. }
      unfold table_block. rewrite (cols_of_eq _ _ _ Es), (cols_of_eq _ _ _ Et).
      apply elem_of_columns_block_iff.
      destruct Hop as [(? & ? & ->)|[(? & ? & ->)|(sd & td & Hsd & Htd & Hne & ->)]].
      * left. exists c. by rewrite elem_of_difference.
      * right; left. exists c. by rewrite elem_of_difference.
      * right; right. exists c. split; [|split; [|done]].
        -- apply elem_of_intersection. split; apply elem_of_dom; eauto.
        -- unfold changed.
           by rewrite (lookup_total_correct _ _ _ Hsd),
             (lookup_total_correct _ _ _ Htd), Hne.
Qed.

End diff_more.



(** X2. When the two schemas share no table name the diff never raises,
    whatever the table dicts hold: it is one [create_table] per target
    table followed by one [drop_table] per source table, each in sorted
    order.  An empty source gives only creations, an empty target only
    drops. *)
Theorem diff_schemas_disjoint (source target : Schema) :
  dom (tables source) ∩ dom (tables target) = ∅ →
  diff_schemas source target
  = Some ((create_table_op (tables target) <$> sorted (dom (tables target)))
          ++ (drop_table_op <$> sorted (dom (tables source)))).
Proof.
  intros Hdisj. rewrite diff_schemas_unfold, Hdisj, sorted_empty. simpl.
  assert (dom (tables target) ∖ dom (tables source) = dom (tables target)) as ->.
  { apply set_eq. intros t. rewrite elem_of_difference. split; [by intros []|].
    intros Ht. split; [done|]. intros Hs.
    apply (not_elem_of_empty (C:=gset string) t). rewrite <- Hdisj.
    by apply elem_of_intersection. }
  assert (dom (tables source) ∖ dom (tables target) = dom (tables source)) as ->.
  { apply set_eq. intros t. rewrite elem_of_difference. split; [by intros []|].
    intros Hs. split; [done|]. intros Ht.
    apply (not_elem_of_empty (C:=gset string) t). rewrite <- Hdisj.
    by apply elem_of_intersection. }
  by rewrite app_nil_r.
Qed.

Lemma diff_schemas_disjoint_witness :
  diff_schemas schema_users schema_posts_bare
  = Some ((create_table_op (tables schema_posts_bare)
             <$> sorted (dom (tables schema_posts_bare)))
          ++ (drop_table_op <$> sorted (dom (tables schema_users)))).
Proof. apply (diff_schemas_disjoint schema_users schema_posts_bare). by_compute. Defined.

(** X3. The operations of a diff are exactly the changes between the
    schemas: a [create_table] for each table only in the target, a
    [drop_table] for each table only in the source, and for each table of
    both an [add_column] for each column only in the target, a
    [drop_column] for each column only in the source and an [alter_column]
    for each column of both whose definitions compare unequal; nothing
    else is in the list. *)
Theorem diff_schemas_members (source target : Schema) (ops : list Operation)
    (op : Operation) :
  diff_schemas source target = Some ops →
  op ∈ ops
  ↔ (∃ t, t ∈ dom (tables target) ∧ (t ∉ dom (tables source))
          ∧ op = create_table_op (tables target) t)
    ∨ (∃ t, t ∈ dom (tables source) ∧ (t ∉ dom (tables target))
            ∧ op = drop_table_op t)
    ∨ (∃ t sc tc c,
         (tables source !! t ≫= columns_of) = Some sc
         ∧ (tables target !! t ≫= columns_of) = Some tc
         ∧ ((c ∈ dom tc ∧ (c ∉ dom sc) ∧ op = add_column_op t tc c)
            ∨ (c ∈ dom sc ∧ (c ∉ dom tc) ∧ op = drop_column_op t c)
            ∨ (∃ src_def tgt_def,
                 sc !! c = Some src_def ∧ tc !! c = Some tgt_def
                 ∧ dict_eqb src_def tgt_def = false
                 ∧ op = alter_column_op t sc tc c))).
Proof. apply diff_schemas_elem_of. Qed.

Lemma diff_schemas_members_witness :
  add_column_op "users" (cols_of (tables schema_c) "users") "name"
  ∈ diff_layout schema_a schema_c.
Proof.
  apply (diff_schemas_members schema_a schema_c (diff_layout schema_a schema_c)).
  - vm_compute. reflexivity.
  - right; right.
    exists "users", (cols_of (tables schema_a) "users"),
      (cols_of (tables schema_c) "users"), "name".
    split; [vm_compute; reflexivity|]. split; [vm_compute; reflexivity|].
    left. split; [by_compute|]. split; [by_compute|reflexivity].
Defined.

(** ** Diff engine: the two directions of a change *)

Section directions.

Lemma py_eqb_sym a b : py_eqb a b = py_eqb b a.
Proof.
  destruct a as [|[]|x|x], b as [|[]|y|y]; simpl; try done.
  - apply Z.eqb_sym.
  - apply String.eqb_sym.
Qed.

(** Python's [==] on two dicts, spelled out. *)
Lemma dict_eqb_true (a b : ColDef) :
  dict_eqb a b = true
  ↔ dom a = dom b
    ∧ ∀ k v w, a !! k = Some v → b !! k = Some w → py_eqb v w = true.
Proof.
  unfold dict_eqb. rewrite andb_true_iff, Nat.eqb_eq, forallb_forall. split.
  - intros [Hsize Hall].
    assert (∀ k v, a !! k = Some v → ∃ w, b !! k = Some w ∧ py_eqb v w = true)
      as Hkeys.
    { intros k v Hk. specialize (Hall (k, v)). simpl in Hall.
      destruct (b !! k) as [w|]; [exists w; split; [done|]|exfalso];
        (assert (In (k, v) (map_to_list a)) as Hin
           by by apply list_elem_of_In, elem_of_map_to_list);
        specialize (Hall Hin); done. }
    split.
    + apply set_subseteq_size_eq.
      * intros k [v Hk]%elem_of_dom. destruct (Hkeys k v Hk) as (w & Hw & _).
        apply elem_of_dom. eauto.
      * rewrite !size_dom. lia.
    + intros k v w Hv Hw. destruct (Hkeys k v Hv) as (w' & Hw' & Heq). congruence.
  - intros [Hdom Hall]. split.
    + by rewrite <- !(size_dom (D:=gset string)), Hdom.
    + intros [k v] Hin%list_elem_of_In%elem_of_map_to_list. simpl.
      assert (k ∈ dom b) as [w Hw]%elem_of_dom.
      { rewrite <- Hdom. apply elem_of_dom. eauto. }
      rewrite Hw. eauto.
Qed.

Lemma dict_eqb_sym (a b : ColDef) : dict_eqb a b = dict_eqb b a.
Proof.
  assert (∀ x y : ColDef, dict_eqb x y = true → dict_eqb y x = true) as Hone.
  { intros x y [Hdom Hall]%dict_eqb_true. apply dict_eqb_true. split; [done|].
    intros k v w Hv Hw. rewrite py_eqb_sym. eauto. }
  destruct (dict_eqb a b) eqn:Eab, (dict_eqb b a) eqn:Eba; try done.
  - apply Hone in Eab. congruence.
  - apply Hone in Eba. congruence.
Qed.

Lemma alter_destructive_both a b :
  alter_destructive a b && alter_destructive b a
  = negb (py_eqb (get a "type") (get b "type")).
Proof.
  unfold alter_destructive. rewrite (py_eqb_sym (get b "type")).
  destruct (py_eqb (get a "type") (get b "type")); simpl;
    [|by rewrite !orb_true_r].
  rewrite !orb_false_r. unfold get, get_or.
  destruct (a !! "nullable") as [[|[]| |]|], (b !! "nullable") as [[|[]| |]|];
    simpl; try done; by rewrite ?andb_false_r.
Qed.

Lemma payload_from (a b : ColDef) :
  ({[ "from" := ACol a; "to" := ACol b ]} : Dict) !! "from" = Some (ACol a).
Proof. reflexivity. Qed.

Lemma payload_to (a b : ColDef) :
  ({[ "from" := ACol a; "to" := ACol b ]} : Dict) !! "to" = Some (ACol b).
Proof. reflexivity. Qed.

Lemma pg_alter_lines_mirror t (sc tc : gmap string ColDef) c :
  pg_alter_lines (alter_column_op t sc tc c) "from"
  = pg_alter_lines (alter_column_op t tc sc c) "to".
Proof.
  unfold pg_alter_lines, alter_prefix. cbn [payload alter_column_op table column].
  by rewrite payload_from, payload_to.
Qed.

End directions.

Section column_members.

Context (source target : Schema) (ops : list Operation).
Hypothesis Hdiff : diff_schemas source target = Some ops.

Lemma column_op_cases op t c :
  op ∈ ops → table op = t → column op = Some c →
  ∃ sc tc,
    (tables source !! t ≫= columns_of) = Some sc
    ∧ (tables target !! t ≫= columns_of) = Some tc
    ∧ ((c ∈ dom tc ∧ (c ∉ dom sc) ∧ op = add_column_op t tc c)
       ∨ (c ∈ dom sc ∧ (c ∉ dom tc) ∧ op = drop_column_op t c)
       ∨ (∃ src_def tgt_def,
            sc !! c = Some src_def ∧ tc !! c = Some tgt_def
            ∧ dict_eqb src_def tgt_def = false
            ∧ op = alter_column_op t sc tc c)).
Proof.
  intros Hop Ht Hc.
  apply (diff_schemas_elem_of _ _ _ _ Hdiff) in Hop
    as [(t' & _ & _ & ->)|[(t' & _ & _ & ->)|(t' & sc & tc & c' & Es & Et & Hop)]];
    [done..|].
  exists sc, tc.
  destruct Hop as [(? & ? & ->)|[(? & ? & ->)|(sd & td & ? & ? & ? & ->)]];
    simpl in *; simplify_eq; eauto 12.
Qed.

Lemma has_add_column_iff t c :
  has_column_op "add_column" t c ops
  ↔ ∃ sc tc,
      (tables source !! t ≫= columns_of) = Some sc
      ∧ (tables target !! t ≫= columns_of) = Some tc
      ∧ c ∈ dom tc ∧ (c ∉ dom sc).
Proof.
  split.
  - intros (op & Hop & Hk & Ht & Hc).
    destruct (column_op_cases op t c Hop Ht Hc) as (sc & tc & Es & Et & Hcase).
    exists sc, tc.
    destruct Hcase as [(? & ? & ->)|[(? & ? & ->)|(? & ? & ? & ? & ? & ->)]];
      simpl in Hk; by simplify_eq.
  - intros (sc & tc & Es & Et & Hin & Hout).
    exists (add_column_op t tc c). split; [|done].
    apply (diff_schemas_elem_of _ _ _ _ Hdiff). right; right.
    exists t, sc, tc, c. eauto 10.
Qed.

Lemma has_drop_column_iff t c :
  has_column_op "drop_column" t c ops
  ↔ ∃ sc tc,
      (tables source !! t ≫= columns_of) = Some sc
      ∧ (tables target !! t ≫= columns_of) = Some tc
      ∧ c ∈ dom sc ∧ (c ∉ dom tc).
Proof.
  split.
  - intros (op & Hop & Hk & Ht & Hc).
    destruct (column_op_cases op t c Hop Ht Hc) as (sc & tc & Es & Et & Hcase).
    exists sc, tc.
    destruct Hcase as [(? & ? & ->)|[(? & ? & ->)|(? & ? & ? & ? & ? & ->)]];
      simpl in Hk; by simplify_eq.
  - intros (sc & tc & Es & Et & Hin & Hout).
    exists (drop_column_op t c). split; [|done].
    apply (diff_schemas_elem_of _ _ _ _ Hdiff). right; right.
    exists t, sc, tc, c. eauto 10.
Qed.

Lemma alter_column_op_cases op t c :
  op ∈ ops → op_type op = "alter_column" → table op = t → column op = Some c →
  ∃ sc tc src_def tgt_def,
    (tables source !! t ≫= columns_of) = Some sc
    ∧ (tables target !! t ≫= columns_of) = Some tc
    ∧ sc !! c = Some src_def ∧ tc !! c = Some tgt_def
    ∧ dict_eqb src_def tgt_def = false
    ∧ op = alter_column_op t sc tc c.
Proof.
  intros Hop Hk Ht Hc.
  destruct (column_op_cases op t c Hop Ht Hc) as (sc & tc & Es & Et & Hcase).
  exists sc, tc.
  destruct Hcase as [(? & ? & ->)|[(? & ? & ->)|(sd & td & ? & ? & ? & ->)]];
    simpl in Hk; try done. eauto 10.
Qed.

Lemma has_alter_column_iff t c :
  has_column_op "alter_column" t c ops
  ↔ ∃ sc tc src_def tgt_def,
      (tables source !! t ≫= columns_of) = Some sc
      ∧ (tables target !! t ≫= columns_of) = Some tc
      ∧ sc !! c = Some src_def ∧ tc !! c = Some tgt_def
      ∧ dict_eqb src_def tgt_def = false.
Proof.
  split.
  - intros (op & Hop & Hk & Ht & Hc).
    destruct (alter_column_op_cases op t c Hop Hk Ht Hc)
      as (sc & tc & sd & td & ? & ? & ? & ? & ? & _).
    exists sc, tc, sd, td. eauto.
  - intros (sc & tc & sd & td & Es & Et & Hsd & Htd & Hne).
    exists (alter_column_op t sc tc c). split; [|done].
    apply (diff_schemas_elem_of _ _ _ _ Hdiff). right; right.
    exists t, sc, tc, c. split; [done|]. split; [done|]. right; right. eauto 10.
Qed.

End column_members.

(** X4. The column operations of diff(A, B) and of diff(B, A) mirror each
    other: a column is added in one direction exactly when it is dropped
    in the other, and altered in one exactly when it is altered in the
    other.  The two mirrored [alter_column] operations swap [from] and
    [to], and both are flagged destructive exactly when the [type]
    changes: a change of nullability alone is destructive in at most one
    direction. *)
Theorem diff_column_symmetry (A B : Schema) (opsAB opsBA : list Operation) :
  diff_schemas A B = Some opsAB → diff_schemas B A = Some opsBA →
  ∀ t c,
    (has_column_op "add_column" t c opsAB ↔ has_column_op "drop_column" t c opsBA)
    ∧ (has_column_op "drop_column" t c opsAB ↔ has_column_op "add_column" t c opsBA)
    ∧ (has_column_op "alter_column" t c opsAB
       ↔ has_column_op "alter_column" t c opsBA)
    ∧ ∀ op op',
        op ∈ opsAB → op' ∈ opsBA →
        op_type op = "alter_column" → op_type op' = "alter_column" →
        table op = t → table op' = t → column op = Some c → column op' = Some c →
        ∃ a b,
          payload op = {[ "from" := ACol a; "to" := ACol b ]}
          ∧ payload op' = {[ "from" := ACol b; "to" := ACol a ]}
          ∧ destructive op && destructive op'
            = negb (py_eqb (get a "type") (get b "type")).
Proof.
  intros HAB HBA t c.
  rewrite (has_add_column_iff A B opsAB HAB), (has_drop_column_iff B A opsBA HBA).
  rewrite (has_drop_column_iff A B opsAB HAB), (has_add_column_iff B A opsBA HBA).
  rewrite (has_alter_column_iff A B opsAB HAB), (has_alter_column_iff B A opsBA HBA).
  split; [|split; [|split]].
  - split; intros (x & y & ? & ? & ? & ?); exists y, x; eauto.
  - split; intros (x & y & ? & ? & ? & ?); exists y, x; eauto.
  - split; intros (x & y & sd & td & ? & ? & ? & ? & Hne);
      exists y, x, td, sd; rewrite dict_eqb_sym; eauto 10.
  - intros op op' Hop Hop' Hk Hk' Ht Ht' Hc Hc'.
    destruct (alter_column_op_cases A B opsAB HAB op t c Hop Hk Ht Hc)
      as (sc & tc & sd & td & Es & Et & Hsd & Htd & _ & ->).
    destruct (alter_column_op_cases B A opsBA HBA op' t c Hop' Hk' Ht' Hc')
      as (sc' & tc' & sd' & td' & Es' & Et' & Hsd' & Htd' & _ & ->).
    simplify_eq. exists sd, td. simpl.
    rewrite (lookup_total_correct _ _ _ Hsd), (lookup_total_correct _ _ _ Htd).
    split; [done|]. split; [done|]. apply alter_destructive_both.
Qed.

Lemma diff_column_symmetry_witness :
  has_column_op "drop_column" "users" "name" (diff_layout schema_c schema_a)
  ∧ has_column_op "alter_column" "users" "email" (diff_layout schema_b schema_a).
Proof.
  split.
  - apply (diff_column_symmetry schema_a schema_c (diff_layout schema_a schema_c)
             (diff_layout schema_c schema_a));
      [vm_compute; reflexivity..|].
    exists (add_column_op "users" (cols_of (tables schema_c) "users") "name").
    split; [|done]. apply (list_elem_of_lookup_2 _ 1). vm_compute. reflexivity.
  - apply (diff_column_symmetry schema_a schema_b (diff_layout schema_a schema_b)
             (diff_layout schema_b schema_a));
      [vm_compute; reflexivity..|].
    exists (alter_column_op "users" cols_a cols_b "email").
    split; [|done]. apply (list_elem_of_lookup_2 _ 1). vm_compute. reflexivity.
Defined.

(** X5. On Postgres the rollback of a creation, an addition or an
    alteration is the forward statement of the opposite diff: for every
    [create_table], [add_column] or [alter_column] of diff(A, B) there is
    an operation of diff(B, A) on the same table and column whose up
    statements are the down statements of the first.  (The down statement
    of a drop is a comment instead.) *)
Theorem pg_rollback_is_reverse_migration (A B : Schema)
    (opsAB opsBA : list Operation) (op : Operation) :
  diff_schemas A B = Some opsAB → diff_schemas B A = Some opsBA →
  op ∈ opsAB →
  op_type op ≠ "drop_table" → op_type op ≠ "drop_column" →
  ∃ op', op' ∈ opsBA ∧ table op' = table op ∧ column op' = column op
         ∧ pg_up_sql op' = pg_down_sql op.
Proof.
  intros HAB HBA Hop Hnt Hnc.
  apply (diff_schemas_elem_of _ _ _ _ HAB) in Hop
    as [(t & Ht & Hs & ->)|[(t & _ & _ & ->)|(t & sc & tc & c & Es & Et &
         [(Hin & Hout & ->)|[(_ & _ & ->)|(sd & td & Hsd & Htd & Hne & ->)]])]];
    try done.
  - exists (drop_table_op t). split; [|done].
    apply (diff_schemas_elem_of _ _ _ _ HBA). right; left. eauto.
  - exists (drop_column_op t c). split; [|done].
    apply (diff_schemas_elem_of _ _ _ _ HBA). right; right.
    exists t, tc, sc, c. eauto 10.
  - exists (alter_column_op t tc sc c). split; [|split; [done|split; [done|]]].
    + apply (diff_schemas_elem_of _ _ _ _ HBA). right; right.
      exists t, tc, sc, c. split; [done|]. split; [done|]. right; right.
      exists td, sd. rewrite dict_eqb_sym. eauto.
    + unfold pg_up_sql, pg_down_sql. simpl. symmetry. apply pg_alter_lines_mirror.
Qed.

Lemma pg_rollback_is_reverse_migration_witness :
  ∃ op', op' ∈ diff_layout schema_b schema_a
         ∧ table op' = "users" ∧ column op' = Some "email"
         ∧ pg_up_sql op' = pg_down_sql (alter_column_op "users" cols_a cols_b "email").
Proof.
  apply (pg_rollback_is_reverse_migration schema_a schema_b
           (diff_layout schema_a schema_b) (diff_layout schema_b schema_a)
           (alter_column_op "users" cols_a cols_b "email"));
    [vm_compute; reflexivity..| |done|done].
  apply (list_elem_of_lookup_2 _ 1). vm_compute. reflexivity.
Defined.

(** ** Diff engine: one operation per table or column *)

Section distinct_targets.

Lemma NoDup_concat_fmap {A B} (g : A → list B) (l : list A) :
  NoDup l → (∀ x, x ∈ l → NoDup (g x)) →
  (∀ x y z, x ∈ l → y ∈ l → z ∈ g x → z ∈ g y → x = y) →
  NoDup (concat (g <$> l)).
Proof.
  induction 1 as [|x l Hx Hl IH]; intros Hg Hdisj; simpl; [constructor|].
  apply NoDup_app. split; [apply Hg; left|]. split.
  - intros z Hz (b & Hzb & (y & -> & Hy)%list_elem_of_fmap)%elem_of_concat.
    apply Hx. rewrite (Hdisj x y z); [done|left|by right|done|done].
  - apply IH.
    + intros y Hy. apply Hg. by right.
    + intros y1 y2 z H1 H2. apply Hdisj; by right.
Qed.

Lemma fmap_concat_fmap {A B C} (f : B → C) (g : A → list B) (l : list A) :
  f <$> concat (g <$> l) = concat ((λ x, f <$> g x) <$> l).
Proof.
  induction l as [|x l IH]; [done|].
  rewrite !fmap_cons. cbn [concat]. by rewrite fmap_app, IH.
Qed.

Lemma columns_block_targets t (sc tc : gmap string ColDef) :
  target_of <$> columns_block t sc tc
  = (λ c, (t, Some c))
      <$> (sorted (dom tc ∖ dom sc) ++ sorted (dom sc ∖ dom tc)
           ++ filter (λ c, changed sc tc c = true) (sorted (dom sc ∩ dom tc))).
Proof.
  unfold columns_block. rewrite !fmap_app, <- !list_fmap_compose. done.
Qed.

Lemma NoDup_columns_block t (sc tc : gmap string ColDef) :
  NoDup (target_of <$> columns_block t sc tc).
Proof.
  rewrite columns_block_targets. apply NoDup_fmap_2; [by intros ?? [=]|].
  apply NoDup_app. split; [apply NoDup_sorted|]. split.
  - intros c [Hc Hn]%elem_of_sorted%elem_of_difference
      [Hin%elem_of_sorted|[_ Hin%elem_of_sorted]%list_elem_of_filter]%elem_of_app.
    + apply elem_of_difference in Hin as [? _]. done.
    + apply elem_of_intersection in Hin as [? _]. done.
  - apply NoDup_app. split; [apply NoDup_sorted|]. split.
    + intros c [Hc Hn]%elem_of_sorted%elem_of_difference
        [_ Hin%elem_of_sorted]%list_elem_of_filter.
      apply elem_of_intersection in Hin as [_ ?]. done.
    + apply NoDup_filter, NoDup_sorted.
Qed.

Lemma diff_layout_targets source target :
  target_of <$> diff_layout source target
  = ((λ t, (t, None)) <$> sorted (dom (tables target) ∖ dom (tables source)))
    ++ ((λ t, (t, None)) <$> sorted (dom (tables source) ∖ dom (tables target)))
    ++ concat ((λ t, target_of <$> table_block (tables source) (tables target) t)
                 <$> sorted (dom (tables source) ∩ dom (tables target))).
Proof.
  unfold diff_layout.
  by rewrite !fmap_app, <- !list_fmap_compose, fmap_concat_fmap.
Qed.

Lemma NoDup_diff_layout source target :
  NoDup (target_of <$> diff_layout source target).
Proof.
  rewrite diff_layout_targets.
  apply NoDup_app. split; [|split].
  - apply NoDup_fmap_2; [by intros ?? [=]|apply NoDup_sorted].
  - intros x (t & -> & [Ht Hn]%elem_of_sorted%elem_of_difference)%list_elem_of_fmap
      [(t' & [= <-] & [? ?]%elem_of_sorted%elem_of_difference)%list_elem_of_fmap
      |(b & Hx & (t' & -> & _)%list_elem_of_fmap)%elem_of_concat]%elem_of_app;
      [done|].
    unfold table_block in Hx. rewrite columns_block_targets in Hx.
    by apply list_elem_of_fmap in Hx as (c & [=] & _).
  - apply NoDup_app. split; [|split].
    + apply NoDup_fmap_2; [by intros ?? [=]|apply NoDup_sorted].
    + intros x (t & -> & _)%list_elem_of_fmap
        (b & Hx & (t' & -> & _)%list_elem_of_fmap)%elem_of_concat.
      unfold table_block in Hx. rewrite columns_block_targets in Hx.
      by apply list_elem_of_fmap in Hx as (c & [=] & _).
    + apply NoDup_concat_fmap; [apply NoDup_sorted| |].
      * intros t _. apply NoDup_columns_block.
      * intros t1 t2 z _ _ H1 H2. unfold table_block in H1, H2.
        rewrite columns_block_targets in H1, H2.
        apply list_elem_of_fmap in H1 as (c1 & -> & _).
        apply list_elem_of_fmap in H2 as (c2 & [=] & _). done.
Qed.

End distinct_targets.

(** X6. No two operations of a diff act on the same table or on the same
    column of a table; and a table that is created or dropped has no
    column operation in the same diff. *)
Theorem diff_targets_distinct (source target : Schema) (ops : list Operation) :
  diff_schemas source target = Some ops →
  NoDup (target_of <$> ops)
  ∧ ∀ op op', op ∈ ops → op' ∈ ops →
      column op = None → is_Some (column op') → table op ≠ table op'.
Proof.
  intros Hdiff. split.
  - rewrite (diff_schemas_Some _ _ _ Hdiff). apply NoDup_diff_layout.
  - intros op op' Hop Hop' Hnone [c Hc] Heq.
    destruct (column_op_cases _ _ _ Hdiff op' (table op') c Hop' eq_refl Hc)
      as (sc & tc & Es%bind_columns_dom & Et%bind_columns_dom & _).
    apply (diff_schemas_elem_of _ _ _ _ Hdiff) in Hop
      as [(t & _ & Hn & ->)|[(t & _ & Hn & ->)|(t & ? & ? & c' & _ & _ &
           [(_ & _ & ->)|[(_ & _ & ->)|(? & ? & _ & _ & _ & ->)]])]];
      simpl in *; try done; by subst.
Qed.

Lemma diff_targets_distinct_witness :
  NoDup (target_of <$> diff_layout schema_b schema_c)
  ∧ ∀ op op', op ∈ diff_layout schema_b schema_c →
      op' ∈ diff_layout schema_b schema_c →
      column op = None → is_Some (column op') → table op ≠ table op'.
Proof.
  apply (diff_targets_distinct schema_b schema_c). vm_compute. reflexivity.
Defined.

(** ** Emitters: statement counts and the SQLite document *)

Section statement_counts.



Lemma pg_alter_lines_length op key l :
  pg_alter_lines op key = Some l → length l = 3.
Proof.
  unfold pg_alter_lines.
  destruct (payload op !! key ≫= as_col) as [d|]; simpl; [|done].
  destruct (d !! "type"); simpl; [|done]. intros [= <-].
  by destruct (truthy _), (non_null_default d).
Qed.

Lemma sqlite_down_sql_single op : ∃ s, sqlite_down_sql op = Some [s].
Proof. unfold sqlite_down_sql. by_kind op; simpl; eauto. Qed.


Lemma pg_down_sql_length op l :
  pg_down_sql op = Some l →
  length l = if String.eqb (op_type op) "alter_column" then 3 else 1.
Proof.
  unfold pg_down_sql.
  destruct (String.eqb_spec (op_type op) "alter_column") as [->|Hne]; simpl.
  - apply pg_alter_lines_length.
  - by_kind op; simpl; by intros [= <-].
Qed.



Lemma reverse_concat_singletons {A} (ls : list (list A)) :
  Forall (λ l, length l = 1) ls → reverse (concat ls) = concat (reverse ls).
Proof.
  induction 1 as [|l ls Hl _ IH]; simpl; [done|].
  destruct l as [|x [|??]]; try done. simpl.
  rewrite !reverse_cons, IH, concat_app. simpl. done.
Qed.

Lemma down_sql_single dialect op l :
  String.eqb dialect "postgres" && String.eqb (op_type op) "alter_column" = false →
  down_sql dialect op = Some l → length l = 1.
Proof.
  unfold down_sql. destruct (String.eqb dialect "postgres"); simpl.
  - intros Hk Hl. apply pg_down_sql_length in Hl. by rewrite Hk in Hl.
  - intros _ Hl. destruct (sqlite_down_sql_single op) as [s Hs]. by simplify_eq.
Qed.

End statement_counts.



(** X8. Whenever every down block is one statement, that is for every
    dialect other than Postgres and for Postgres when no operation is an
    [alter_column], the rendered document does keep the down blocks in
    reverse operation order: it is the blockwise document. *)
Theorem render_sql_blockwise_single (ops : list Operation) (dialect : string) :
  dialect ≠ "postgres" ∨ (∀ op, op ∈ ops → op_type op ≠ "alter_column") →
  render_sql ops dialect = blockwise_render_sql ops dialect.
Proof.
  intros Hsingle. rewrite render_sql_unfold. unfold blockwise_render_sql.
  destruct (mapM (up_sql dialect) ops) as [ups|]; simpl; [|done].
  destruct (mapM (down_sql dialect) ops) as [downs|] eqn:E; simpl; [|done].
  rewrite reverse_concat_singletons; [done|].
  apply mapM_Some in E. clear ups.
  induction E as [|op l ops' downs' Hl _ IH]; [constructor|].
  constructor.
  - apply (down_sql_single dialect op); [|done].
    destruct Hsingle as [Hd|Hk].
    + apply String.eqb_neq in Hd. by rewrite Hd.
    + assert (op_type op ≠ "alter_column") as Hne by (apply Hk; left).
      apply String.eqb_neq in Hne. by rewrite Hne, andb_false_r.
  - apply IH. destruct Hsingle as [Hd|Hk]; [by left|].
    right. intros op' Hop'. apply Hk. by right.
Qed.

Lemma render_sql_blockwise_single_witness :
  render_sql (diff_layout schema_a schema_b) "sqlite"
  = blockwise_render_sql (diff_layout schema_a schema_b) "sqlite".
Proof.
  apply (render_sql_blockwise_single (diff_layout schema_a schema_b) "sqlite").
  left. done.
Defined.

(** ** Column fragments across dialects, and the Postgres alteration *)

Section dialects.

Lemma append_assoc (a b c : string) : (a +:+ b) +:+ c = a +:+ b +:+ c.
Proof.
  induction a as [|x a IH]; [done|].
  change (String x ((a +:+ b) +:+ c) = String x (a +:+ b +:+ c)). by f_equal.
Qed.

Lemma join_snoc sep (l : list string) x :
  l ≠ [] → join sep (l ++ [x]) = join sep l +:+ sep +:+ x.
Proof.
  induction l as [|a l IH]; [done|]. intros _.
  destruct l as [|b l]; [done|].
  change (join sep ((a :: b :: l) ++ [x]))
    with (a +:+ sep +:+ join sep ((b :: l) ++ [x])).
  change (join sep (a :: b :: l)) with (a +:+ sep +:+ join sep (b :: l)).
  rewrite IH by done. by rewrite !append_assoc.
Qed.

Lemma spec_column_parts_split name ty (d : ColDef) dialect :
  spec_column_parts name ty d dialect
  = spec_column_parts name ty d "postgres"
    ++ (if String.eqb dialect "sqlite" && flag_set d "autoincrement"
        then ["AUTOINCREMENT"] else []).
Proof.
  unfold spec_column_parts.
  change (String.eqb "postgres" "sqlite") with false.
  cbn [andb]. by rewrite app_nil_r, <- !app_assoc.
Qed.

Lemma pg_alter_lines_typed op key (d : ColDef) ty :
  payload op !! key = Some (ACol d) → d !! "type" = Some ty →
  nullable_typed d = true →
  pg_alter_lines op key = Some (spec_alter_statements op d ty).
Proof.
  intros Hp Hty Hn. unfold pg_alter_lines, spec_alter_statements.
  rewrite Hp. simpl. rewrite Hty. simpl.
  unfold nullable_typed in Hn.
  unfold explicitly_non_nullable, non_null_default, get_or.
  destruct (d !! "nullable") as [[|[]| |]|]; try done; simpl;
    (destruct (d !! "default") as [v|]; [|done]);
    (destruct (decide (v = SNull)) as [->|Hv]; [done|]);
    rewrite <- default_sql_spec; by destruct v.
Qed.

End dialects.

(** X9. The dialect reaches a column fragment only through the trailing
    [AUTOINCREMENT]: every dialect other than ["sqlite"] renders a column
    as Postgres does, and SQLite renders the Postgres fragment, followed
    by [ AUTOINCREMENT] exactly when the flag is set; a definition without
    a [type] raises in every dialect. *)
Theorem column_sql_dialects (name : string) (d : ColDef) :
  (∀ dialect, dialect ≠ "sqlite" →
     column_sql name d dialect = column_sql name d "postgres")
  ∧ column_sql name d "sqlite"
    = (λ s, if flag_set d "autoincrement" then s +:+ " AUTOINCREMENT" else s)
        <$> column_sql name d "postgres"
  ∧ (∀ dialect, column_sql name d dialect = None ↔ d !! "type" = None).
Proof.
  split; [|split].
  - intros dialect Hd%String.eqb_neq. unfold column_sql. by rewrite Hd.
  - destruct (d !! "type") as [ty|] eqn:Hty.
    + rewrite !(column_sql_parts _ ty) by done.
      rewrite (spec_column_parts_split _ _ _ "sqlite").
      change (String.eqb "sqlite" "sqlite") with true.
      cbn [andb fmap option_fmap option_map].
      destruct (flag_set d "autoincrement"); [|by rewrite app_nil_r].
      f_equal. apply (join_snoc " "). by unfold spec_column_parts.
    + unfold column_sql. by rewrite Hty.
  - intros dialect. unfold column_sql.
    destruct (d !! "type"); simpl; [by split|done].
Qed.

Lemma column_sql_dialects_witness :
  column_sql "n" col_counter "mysql" = column_sql "n" col_counter "postgres".
Proof. by apply (proj1 (column_sql_dialects "n" col_counter) "mysql"). Defined.

(** X10. A Postgres [alter_column] whose target definition has a [type]
    and a [nullable] that is absent or a boolean emits exactly three
    statements, in this order: [TYPE <type>]; [SET NOT NULL] when
    [nullable] is explicitly false, the very condition under which the
    column renderer prints [NOT NULL], and [DROP NOT NULL] otherwise;
    [SET DEFAULT <value>] with the value formatted as the column renderer
    formats it when a non-null default is present, and [DROP DEFAULT]
    otherwise.  The down direction does the same with the [from]
    definition. *)
Theorem pg_alter_column_statements (op : Operation) (d : ColDef) (ty : Scalar) :
  op_type op = "alter_column" → d !! "type" = Some ty →
  nullable_typed d = true →
  (payload op !! "to" = Some (ACol d) →
   pg_up_sql op = Some (spec_alter_statements op d ty))
  ∧ (payload op !! "from" = Some (ACol d) →
     pg_down_sql op = Some (spec_alter_statements op d ty)).
Proof.
  intros Hk Hty Hn. unfold pg_up_sql, pg_down_sql. rewrite Hk. simpl.
  split; intros Hp; by apply pg_alter_lines_typed.
Qed.

Lemma pg_alter_column_statements_witness :
  pg_up_sql op_alter_email
  = Some [alter_prefix op_alter_email +:+ "TYPE TEXT;";
          alter_prefix op_alter_email +:+ "SET NOT NULL;";
          alter_prefix op_alter_email +:+ "SET DEFAULT 'x';"].
Proof.
  apply (proj1 (pg_alter_column_statements op_alter_email col_text_nn
                  (SStr "TEXT") eq_refl eq_refl eq_refl)).
  reflexivity.
Defined.

(** ** Dry-run summary: the counts add up *)

Section dry_run_totals.

Lemma dict_total_insert_fresh (m : gmap string nat) k n :
  m !! k = None → dict_total (<[k := n]> m) = n + dict_total m.
Proof.
  intros Hk. unfold dict_total. apply map_fold_insert_L; [|done].
  intros. lia.
Qed.

Lemma dict_total_lookup (m : gmap string nat) k n :
  m !! k = Some n → dict_total m = n + dict_total (delete k m).
Proof.
  intros Hk. rewrite <- (insert_delete_id m k n Hk) at 1.
  apply dict_total_insert_fresh, lookup_delete_eq.
Qed.

Lemma dict_total_bump (m : gmap string nat) k :
  dict_total (<[k := default 0 (m !! k) + 1]> m) = dict_total m + 1.
Proof.
  destruct (m !! k) as [n|] eqn:Hk; simpl.
  - rewrite <- insert_delete_eq.
    rewrite dict_total_insert_fresh by apply lookup_delete_eq.
    rewrite (dict_total_lookup m k n Hk). lia.
  - rewrite dict_total_insert_fresh by done. lia.
Qed.

Lemma count_loop_total ops (m : gmap string nat) (n : nat) :
  dict_total (foldl count_body (m, n) ops).1 = dict_total m + length ops.
Proof.
  revert m n. induction ops as [|op ops IH]; intros m n; simpl; [lia|].
  rewrite IH, dict_total_bump. lia.
Qed.

End dry_run_totals.

(** X11. The numbers of the dry-run summary are consistent: the per-kind
    counts add up to the total operation count, every printed kind has a
    count of at least one, and the destructive count is at most the
    total. *)
Theorem dry_run_counts_add_up (ops : list Operation) :
  ∃ by_type destructive_count,
    foldl count_body (∅, 0) ops = (by_type, destructive_count)
    ∧ dict_total by_type = length ops
    ∧ (∀ (kind : string) (n : nat),
         by_type !! kind = Some n → (1 ≤ n)%nat ∧ n = count_kind kind ops)
    ∧ destructive_count = count_destructive ops
    ∧ (destructive_count ≤ length ops)%nat.
Proof.
  destruct (count_loop ops ∅ 0) as (bt & Hfold & Hbt).
  exists bt, (0 + count_destructive ops). split; [done|]. split; [|split; [|split]].
  - pose proof (count_loop_total ops ∅ 0) as Htot. rewrite Hfold in Htot.
    simpl in Htot. by rewrite Htot.
  - intros kind n. rewrite Hbt, lookup_empty.
    case_decide; [done|]. simpl. intros [= <-]. lia.
  - done.
  - simpl. unfold count_destructive. apply length_filter.
Qed.

Lemma dry_run_counts_add_up_witness :
  ∃ by_type destructive_count,
    foldl count_body (∅, 0) (diff_layout schema_b schema_c)
    = (by_type, destructive_count)
    ∧ dict_total by_type = 3 ∧ destructive_count = 1.
Proof.
  destruct (dry_run_counts_add_up (diff_layout schema_b schema_c))
    as (bt & d & Hfold & Htotal & _ & Hd & _).
  assert (length (diff_layout schema_b schema_c) = 3) as Hlen
    by (vm_compute; reflexivity).
  assert (count_destructive (diff_layout schema_b schema_c) = 1) as Hcount
    by (vm_compute; reflexivity).
  rewrite Hlen in Htotal. rewrite Hcount in Hd.
  exists bt, d. split; [exact Hfold|]. split; [exact Htotal|exact Hd].
Defined.

(** ** The loader *)

Section loader_properties.

Lemma check_each_Ok {A} (xs : list A) (body : A → result unit) :
  check_each xs body = Ok tt ↔ Forall (λ x, body x = Ok tt) xs.
Proof.
  induction xs as [|x xs IH]; simpl; [by split|].
  rewrite Forall_cons. destruct (body x) as [[]|e]; [|by split; [|intros []]].
  rewrite IH. by split; [|intros []].
Qed.

(** The loop stops at the first element that raises. *)
Lemma check_each_first {A} (good rest : list A) (bad : A) (body : A → result unit) e :
  Forall (λ x, body x = Ok tt) good → body bad = Raise e →
  check_each (good ++ bad :: rest) body = Raise e.
Proof.
  induction 1 as [|x good Hx _ IH]; intros Hbad; simpl.
  - by rewrite Hbad.
  - rewrite Hx. by apply IH.
Qed.

Lemma check_column_Ok table_name col :
  check_column table_name col = Ok tt ↔ column_ok col.
Proof.
  destruct col as [col_name col_def]. unfold column_ok. simpl.
  destruct col_def as [| | | | |attrs]; try (split; [done|by intros (? & ? & ?)]).
  destruct (jhas "type" attrs) eqn:E; simpl.
  - split; [eauto|done].
  - split; [done|]. intros (? & [= <-] & ?). congruence.
Qed.

Lemma check_table_Ok tab : check_table tab = Ok tt ↔ table_ok tab.
Proof.
  destruct tab as [table_name table_def]. unfold table_ok. simpl.
  destruct table_def as [| | | | |members];
    try (split; [done|by intros (? & ? & ? & ?)]).
  destruct (jget "columns" members) as [| | | | |columns] eqn:E;
    try (split; [done|intros (? & ? & [= <-] & ? & ?); congruence]).
  rewrite check_each_Ok. split.
  - intros Hall. exists members, columns. repeat split; try done.
    eapply Forall_impl; [done|]. intros col. by rewrite check_column_Ok.
  - intros (? & ? & [= <-] & Hc & Hall). rewrite E in Hc. injection Hc as <-.
    eapply Forall_impl; [done|]. intros col. by rewrite check_column_Ok.
Qed.

Lemma load_schema_Ok_iff (path_exists : string → bool)
    (read_json : string → string + Json) (path : string) (raw : Json) :
  load_schema path_exists read_json path = Ok raw
  ↔ path_exists path = true ∧ read_json path = inr raw ∧ schema_ok raw.
Proof.
  unfold load_schema, schema_ok.
  destruct (path_exists path); simpl; [|by split; [|intros []]].
  destruct (read_json path) as [exc|raw']; [by split; [|intros (_ & ? & _)]|].
  destruct raw' as [| | | | |top];
    try (split; [done|by intros (_ & [= <-] & ? & ? & ? & _)]).
  destruct (jget "tables" top) as [| | | | |tables] eqn:E;
    try (split; [done|intros (_ & [= <-] & ? & ? & [= <-] & ? & _); congruence]).
  destruct (check_each tables check_table) as [[]|e] eqn:Ec.
  - apply check_each_Ok in Ec. split.
    + intros [= <-]. repeat split; try done. exists top, tables.
      repeat split; try done.
      eapply Forall_impl; [done|]. intros tab. by rewrite check_table_Ok.
    + by intros (_ & [= <-] & _).
  - split; [done|]. intros (_ & [= <-] & top' & tables' & [= <-] & Ht & Hall).
    rewrite E in Ht. injection Ht as <-.
    assert (check_each tables check_table = Ok tt) as Hok; [|congruence].
    apply check_each_Ok. eapply Forall_impl; [done|].
    intros tab. by rewrite check_table_Ok.
Qed.

End loader_properties.

(** X12. [load_schema] returns exactly when the file exists, parses, and
    has the validated shape: an object whose [tables] is an object, every
    table an object whose [columns] is an object, every column an object
    with a [type] key.  What it returns is the parsed value itself. *)
Theorem load_schema_accepts (path_exists : string → bool)
    (read_json : string → string + Json) (path : string) (raw : Json) :
  load_schema path_exists read_json path = Ok raw
  ↔ path_exists path = true ∧ read_json path = inr raw ∧ schema_ok raw.
Proof. apply load_schema_Ok_iff. Qed.

(** X13. The errors of [load_schema] on a file that exists and parses.  A
    top-level value that is not an object raises [AttributeError], not the
    [ValueError] the driver catches.  A missing or non-object [tables]
    raises the [ValueError] naming the path.  Otherwise the tables are
    checked in file order and the error is that of the first table that
    fails, whatever the later tables hold. *)
Theorem load_schema_errors (path_exists : string → bool)
    (read_json : string → string + Json) (path : string) :
  path_exists path = true →
  (∀ raw, read_json path = inr raw → (∀ top, raw ≠ JObj top) →
     load_schema path_exists read_json path = Raise AttributeError)
  ∧ (∀ top, read_json path = inr (JObj top) →
       (∀ tables, jget "tables" top ≠ JObj tables) →
       load_schema path_exists read_json path
       = Raise (ValueError (path +:+ " must contain object key 'tables'")))
  ∧ (∀ top good bad rest e,
       read_json path = inr (JObj top) →
       jget "tables" top = JObj (good ++ bad :: rest) →
       Forall table_ok good → check_table bad = Raise e →
       load_schema path_exists read_json path = Raise e).
Proof.
  intros Hex. unfold load_schema. rewrite Hex. simpl. split; [|split].
  - intros raw -> Hno. destruct raw; try done. by destruct (Hno members).
  - intros top -> Hno.
    destruct (jget "tables" top) as [| | | | |tables]; try done.
    by destruct (Hno tables).
  - intros top good bad rest e -> -> Hgood Hbad.
    rewrite (check_each_first good rest bad check_table e); [done| |done].
    eapply Forall_impl; [done|]. intros tab. by rewrite check_table_Ok.
Qed.

Lemma load_schema_errors_witness :
  load_schema (λ _, true) (λ _, inr json_two_bad) "b.json"
  = Raise (ValueError "column 'posts.id' missing 'type'")
  ∧ load_schema (λ _, true) (λ _, inr (JArr [])) "b.json" = Raise AttributeError.
Proof.
  destruct (load_schema_errors (λ _, true) (λ _, inr json_two_bad) "b.json"
              eq_refl) as (_ & _ & Hfirst).
  destruct (load_schema_errors (λ _, true) (λ _, inr (JArr [])) "b.json"
              eq_refl) as (Hattr & _ & _).
  split.
  - eapply (Hfirst _ [("users", JObj [("columns",
                        JObj [("id", JObj [("type", JStr "INTEGER")])])])]
             ("posts", JObj [("columns",
                        JObj [("id", JObj [("kind", JStr "INTEGER")])])])
             [("tags", JNum 3)]); [reflexivity|reflexivity| |reflexivity].
    repeat constructor. eexists _, _. split; [reflexivity|].
    split; [reflexivity|]. repeat constructor. by eexists.
  - by apply (Hattr (JArr [])).
Defined.

Lemma load_schema_accepts_witness :
  load_schema (λ _, true) (λ _, inr json_users_ok) "a.json" = Ok json_users_ok.
Proof.
  apply (load_schema_accepts (λ _, true) (λ _, inr json_users_ok) "a.json").
  split; [reflexivity|]. split; [reflexivity|].
  eexists _, _. split; [reflexivity|]. split; [reflexivity|].
  repeat constructor. eexists _, _. split; [reflexivity|]. split; [reflexivity|].
  repeat constructor. by eexists.
Defined.

(** ** The driver *)

Section driver_properties.

Context (loader : string → result Schema).

(** [main] once both schemas are loaded. *)
Lemma main_loaded args source target :
  loader (from_file args) = Ok source → loader (to_file args) = Ok target →
  main loader args
  = operations ← diff_schemas source target;
    if negb (bool_decide (filter (λ op, destructive op = true) operations = []))
       && negb (allow_destructive args) then
      Some {| exit_code := 2; stdout := "";
              stderr := print_lines
                (halt_header
                 :: (describe <$> filter (λ op, destructive op = true) operations));
              written := None |}
    else
      output ← (if dry_run args then dry_run_summary operations
                else render_sql operations (dialect args));
      Some (match out args with
            | Some path =>
                if negb (String.eqb path "") then
                  {| exit_code := 0; stdout := ""; stderr := "";
                     written := Some (path, output +:+ nl) |}
                else {| exit_code := 0; stdout := output +:+ nl; stderr := "";
                        written := None |}
            | None => {| exit_code := 0; stdout := output +:+ nl; stderr := "";
                         written := None |}
            end).
Proof.
  intros Hs Ht. unfold main. rewrite Hs, Ht.
  destruct (diff_schemas source target) as [ops|]; simpl; [|done].
  destruct (negb _ && negb _); [done|].
  destruct (if dry_run args then _ else _) as [output|]; simpl; [|done].
  destruct (out args) as [path|]; [|done]. by destruct (negb _).
Qed.

Lemma filter_nil_iff {A} (P : A → Prop) `{∀ x, Decision (P x)} (l : list A) :
  filter P l = [] ↔ ∀ x, x ∈ l → ¬ P x.
Proof.
  split; [|apply filter_none].
  intros Hnil x Hx HP.
  assert (x ∈ filter P l) as Hin by by apply list_elem_of_filter.
  rewrite Hnil in Hin. by apply not_elem_of_nil in Hin.
Qed.

Lemma main_exit_cases args r :
  main loader args = Some r →
  (exit_code r = 1%Z ∧ stdout r = "" ∧ written r = None
   ∧ ∃ exc, stderr r = print_lines ["Error: " +:+ exc]
            ∧ (loader (from_file args) = Raise (ValueError exc)
               ∨ (∃ source, loader (from_file args) = Ok source)
                 ∧ loader (to_file args) = Raise (ValueError exc)))
  ∨ (∃ source target ops,
       loader (from_file args) = Ok source ∧ loader (to_file args) = Ok target
       ∧ diff_schemas source target = Some ops
       ∧ ((exit_code r = 2%Z ∧ stdout r = "" ∧ written r = None
           ∧ allow_destructive args = false
           ∧ (∃ op, op ∈ ops ∧ destructive op = true)
           ∧ stderr r = print_lines
               (halt_header
                :: (describe <$> filter (λ op, destructive op = true) ops)))
          ∨ (exit_code r = 0%Z ∧ stderr r = ""
             ∧ (allow_destructive args = true
                ∨ ∀ op, op ∈ ops → destructive op = false)
             ∧ ∃ output,
                 (if dry_run args then dry_run_summary ops
                  else render_sql ops (dialect args)) = Some output
                 ∧ ((stdout r = output +:+ nl ∧ written r = None)
                    ∨ (∃ path, out args = Some path ∧ path ≠ ""
                               ∧ stdout r = ""
                               ∧ written r = Some (path, output +:+ nl)))))).
Proof.
  destruct (loader (from_file args)) as [source|[exc|]] eqn:Hs.
  2:{ unfold main. rewrite Hs. intros [= <-]. left. simpl.
      do 3 (split; [done|]). exists exc. split; [done|]. by left. }
  2:{ unfold main. by rewrite Hs. }
  destruct (loader (to_file args)) as [target|[exc|]] eqn:Ht.
  2:{ unfold main. rewrite Hs, Ht. intros [= <-]. left. simpl.
      do 3 (split; [done|]). exists exc. split; [done|]. right. eauto. }
  2:{ unfold main. by rewrite Hs, Ht. }
  rewrite (main_loaded args source target Hs Ht).
  destruct (diff_schemas source target) as [ops|] eqn:Hd; [|done].
  cbn [mbind option_bind].
  intros Hr. right. exists source, target, ops. do 3 (split; [done|]).
  destruct (negb (bool_decide (filter (λ op, destructive op = true) ops = []))
            && negb (allow_destructive args)) eqn:Hhalt.
  - left. injection Hr as <-. cbn [exit_code stdout stderr written].
    apply andb_true_iff in Hhalt as [Hnil Ha].
    apply negb_true_iff in Hnil, Ha. apply bool_decide_eq_false in Hnil.
    do 4 (split; [done|]). split; [|done].
    destruct (filter (λ op, destructive op = true) ops) as [|op l] eqn:Hf;
      [done|].
    assert (op ∈ filter (λ op, destructive op = true) ops) as Hin
      by (rewrite Hf; left).
    apply list_elem_of_filter in Hin as [Hflag Hin]. by exists op.
  - right.
    assert (allow_destructive args = true
            ∨ ∀ op, op ∈ ops → destructive op = false) as Hallowed.
    { apply andb_false_iff in Hhalt as [Hnil|Ha].
      - right. apply negb_false_iff, bool_decide_eq_true in Hnil.
        intros op Hop. apply (proj1 (filter_nil_iff _ _) Hnil) in Hop.
        by destruct (destructive op).
      - left. by apply negb_false_iff in Ha. }
    destruct (if dry_run args then dry_run_summary ops
              else render_sql ops (dialect args)) as [output|]; [|done].
    cbn [mbind option_bind] in Hr. injection Hr as <-.
    destruct (out args) as [path|]; [destruct (String.eqb_spec path "")|];
      cbn [negb exit_code stdout stderr written];
      (do 3 (split; [done|])); exists output; (split; [done|]).
    + by left.
    + right. by exists path.
    + by left.
Qed.

End driver_properties.

(** X14. A run of [main] that returns exits with 0, 1 or 2.  It exits with
    2 exactly when both schemas load, the diff has an operation flagged
    destructive and [--allow-destructive] is not given, and then standard
    error holds the notice followed by one line per destructive operation,
    in diff order.  A run that exits with 1 or 2 prints nothing to
    standard output and writes no file; a run that exits with 0 prints
    nothing to standard error. *)
Theorem main_exit_codes (loader : string → result Schema) (args : Args)
    (r : Run) :
  main loader args = Some r →
  (exit_code r = 0%Z ∨ exit_code r = 1%Z ∨ exit_code r = 2%Z)
  ∧ (exit_code r ≠ 0%Z → stdout r = "" ∧ written r = None)
  ∧ (exit_code r = 0%Z → stderr r = "")
  ∧ (exit_code r = 2%Z
     ↔ ∃ source target ops,
         loader (from_file args) = Ok source ∧ loader (to_file args) = Ok target
         ∧ diff_schemas source target = Some ops
         ∧ allow_destructive args = false
         ∧ ∃ op, op ∈ ops ∧ destructive op = true)
  ∧ (exit_code r = 2%Z →
     ∃ source target ops,
       loader (from_file args) = Ok source ∧ loader (to_file args) = Ok target
       ∧ diff_schemas source target = Some ops
       ∧ stderr r = print_lines
           (halt_header
            :: (describe <$> filter (λ op, destructive op = true) ops))).
Proof.
  intros Hr.
  destruct (main_exit_cases loader args r Hr)
    as [(He & Ho & Hw & exc & Herr & Hload)
       |(source & target & ops & Hs & Ht & Hd &
         [(He & Ho & Hw & Ha & Hop & Herr)
         |(He & Herr & Hallow & output & Hout & Hdest)])].
  - rewrite He. split; [auto|]. split; [done|]. split; [done|].
    split; [|done]. split; [done|].
    intros (s' & t' & ops' & Hs' & Ht' & _).
    destruct Hload as [Hl|[_ Hl]]; congruence.
  - rewrite He. split; [auto|]. split; [done|]. split; [done|]. split.
    + split; [|done]. intros _. exists source, target, ops. eauto.
    + intros _. exists source, target, ops. eauto.
  - rewrite He. split; [auto|]. split; [done|]. split; [done|].
    split; [|done]. split; [done|].
    intros (s' & t' & ops' & Hs' & Ht' & Hd' & Ha & op & Hop & Hflag).
    rewrite Hs in Hs'. injection Hs' as <-.
    rewrite Ht in Ht'. injection Ht' as <-.
    rewrite Hd in Hd'. injection Hd' as <-.
    destruct Hallow as [Hallow|Hnone]; [congruence|].
    rewrite (Hnone op Hop) in Hflag. done.
Qed.

Lemma main_exit_codes_witness :
  ∃ r, main loader_ab args_ab = Some r ∧ exit_code r = 2%Z
       ∧ stdout r = "" ∧ written r = None
       ∧ stderr r = print_lines [halt_header; "  - alter_column: users.email"].
Proof.
  eexists. split; [vm_compute; reflexivity|].
  match goal with
  | |- exit_code ?r = _ ∧ _ =>
      pose proof (main_exit_codes loader_ab args_ab r eq_refl)
        as (_ & Hquiet & _ & _ & _)
  end.
  split; [reflexivity|]. split; [by apply Hquiet|].
  split; [by apply Hquiet|]. reflexivity.
Defined.

(** X15. [--out] only redirects: a successful run with an output path
    writes to that file exactly the text the same run without [--out]
    prints, line feed included, and prints nothing itself; an empty path
    counts as no path. *)
Theorem main_out_redirects (loader : string → result Schema) (args : Args)
    (path : string) (r : Run) :
  main loader (with_out args (Some path)) = Some r → exit_code r = 0%Z →
  ∃ r', main loader (with_out args None) = Some r' ∧ exit_code r' = 0%Z
        ∧ written r' = None
        ∧ if String.eqb path "" then r = r'
          else written r = Some (path, stdout r') ∧ stdout r = "".
Proof.
  intros Hr He.
  destruct (loader (from_file args)) as [source|[exc|]] eqn:Hs.
  2:{ unfold main in Hr. cbn [with_out from_file] in Hr. rewrite Hs in Hr.
      injection Hr as <-. done. }
  2:{ unfold main in Hr. cbn [with_out from_file] in Hr. by rewrite Hs in Hr. }
  destruct (loader (to_file args)) as [target|[exc|]] eqn:Ht.
  2:{ unfold main in Hr. cbn [with_out from_file to_file] in Hr.
      rewrite Hs, Ht in Hr. injection Hr as <-. done. }
  2:{ unfold main in Hr. cbn [with_out from_file to_file] in Hr.
      by rewrite Hs, Ht in Hr. }
  rewrite (main_loaded loader (with_out args (Some path)) source target Hs Ht)
    in Hr.
  rewrite (main_loaded loader (with_out args None) source target Hs Ht).
  cbn [with_out out dry_run dialect allow_destructive] in Hr |- *.
  destruct (diff_schemas source target) as [ops|]; [|done].
  cbn [mbind option_bind] in Hr |- *.
  destruct (negb (bool_decide (filter (λ op, destructive op = true) ops = []))
            && negb (allow_destructive args)).
  { injection Hr as <-. done. }
  destruct (if dry_run args then dry_run_summary ops
            else render_sql ops (dialect args)) as [output|]; [|done].
  cbn [mbind option_bind] in Hr |- *. injection Hr as <-.
  eexists. split; [reflexivity|]. cbn [exit_code written stdout].
  split; [reflexivity|]. split; [reflexivity|].
  destruct (String.eqb path ""); cbn [negb exit_code written stdout]; done.
Qed.

Lemma main_out_redirects_witness :
  ∃ r r', main loader_ab (with_out args_ab_allow (Some "plan.txt")) = Some r
          ∧ main loader_ab (with_out args_ab_allow None) = Some r'
          ∧ written r = Some ("plan.txt", stdout r') ∧ stdout r = "".
Proof.
  eexists. 
  match goal with
  | |- ∃ r', ?m = Some ?r ∧ _ =>
      assert (m = Some r) as Hr by (vm_compute; reflexivity)
  end.
  match type of Hr with
  | _ = Some ?r =>
      destruct (main_out_redirects loader_ab args_ab_allow "plan.txt" r Hr eq_refl)
        as (r' & Hr' & _ & _ & Hw)
  end.
  exists r'. split; [exact Hr|]. split; [exact Hr'|]. exact Hw.
Defined.




(** ** The loader and the diff engine together *)

Section abstraction.

Lemma jhas_false_jget k members : jhas k members = false → jget k members = JNull.
Proof.
  induction members as [|[k' v] rest IH]; simpl; [done|].
  destruct (String.eqb k' k); simpl; [done|]. apply IH.
Qed.

Lemma jhas_elem_of k members :
  jhas k members = true → (k, jget k members) ∈ members.
Proof.
  induction members as [|[k' v] rest IH]; simpl; [done|].
  destruct (String.eqb_spec k' k) as [->|Hne]; simpl; [left|].
  intros Hhas. right. by apply IH.
Qed.

Lemma to_dict_lookup {V} (g : string → Json → option V) members m k :
  to_dict g members = Some m →
  m !! k = (if jhas k members then g k (jget k members) else None)
  ∧ (jhas k members = true → is_Some (g k (jget k members))).
Proof.
  unfold to_dict. revert m.
  induction members as [|[k' j] rest IH]; intros m.
  - simpl. intros [= <-]. by rewrite lookup_empty.
  - rewrite mapM_cons_option. cbn [fst snd].
    destruct (g k' j) as [v|] eqn:Hg; [|done]. cbn [mbind option_bind].
    destruct (mapM _ rest) as [l|] eqn:Hl; [|done].
    cbn [mbind option_bind fmap option_fmap option_map]. intros [= <-].
    simpl jhas. simpl jget.
    destruct (String.eqb_spec k' k) as [->|Hne]; simpl.
    + rewrite lookup_insert_eq, Hg. eauto.
    + rewrite lookup_insert_ne by done. by apply IH.
Qed.

Lemma to_coldef_has_type j (d : ColDef) :
  column_ok ("", j) → to_coldef j = Some d → is_Some (d !! "type").
Proof.
  intros (attrs & Hj & Hty) Hd. simpl in Hj. subst j. simpl in Hd.
  destruct (to_dict_lookup _ attrs d "type" Hd) as [Hlook Hsome].
  rewrite Hlook, Hty. by apply Hsome.
Qed.

Lemma to_table_wf t j (d : Dict) :
  table_ok (t, j) → to_table j = Some d → wf_table d.
Proof.
  intros (members & columns & Hj & Hcols & Hall) Hd. simpl in Hj. subst j.
  simpl in Hd.
  destruct (to_dict_lookup _ members d "columns" Hd) as [Hlook Hsome].
  assert (jhas "columns" members = true) as Hhas.
  { destruct (jhas "columns" members) eqn:E; [done|].
    apply jhas_false_jget in E. congruence. }
  rewrite Hhas, Hcols in Hlook. specialize (Hsome Hhas). rewrite Hcols in Hsome.
  unfold to_table_value in Hlook, Hsome. simpl in Hlook, Hsome.
  destruct (to_dict (λ _, to_coldef) columns) as [cs|] eqn:Hcs;
    [|by destruct Hsome].
  simpl in Hlook. unfold wf_table, columns_of. rewrite Hlook. simpl.
  intros c cd Hc.
  destruct (to_dict_lookup _ columns cs c Hcs) as [Hlc _].
  rewrite Hc in Hlc. destruct (jhas c columns) eqn:Hhc; [|done].
  apply jhas_elem_of in Hhc.
  rewrite Forall_forall in Hall. specialize (Hall _ Hhc).
  destruct Hall as (attrs & Ha & Hty). simpl in Ha.
  apply (to_coldef_has_type (jget c columns)); [|done].
  exists attrs. by split.
Qed.

Lemma to_schema_wf raw s : schema_ok raw → to_schema raw = Some s → wf_schema s.
Proof.
  intros (top & tabs & -> & Htabs & Hall) Hs. simpl in Hs. rewrite Htabs in Hs.
  destruct (to_dict (λ _, to_table) tabs) as [m|] eqn:Hm; [|done].
  simpl in Hs. injection Hs as <-. intros t d Ht. simpl in Ht.
  destruct (to_dict_lookup _ tabs m t Hm) as [Hlook _].
  rewrite Ht in Hlook. destruct (jhas t tabs) eqn:Hhas; [|done].
  apply jhas_elem_of in Hhas.
  rewrite Forall_forall in Hall.
  by apply (to_table_wf t (jget t tabs)); [apply Hall|].
Qed.

End abstraction.

(** X17. What [load_schema] accepts is well-formed for the diff engine:
    when it returns a parsed file, the schema that file stands for has a
    [columns] mapping in every table and a [type] in every column, the
    two lookups the diff and the emitters rely on. *)
Theorem load_schema_establishes_wf (path_exists : string → bool)
    (read_json : string → string + Json) (path : string) (raw : Json)
    (s : Schema) :
  load_schema path_exists read_json path = Ok raw →
  to_schema raw = Some s →
  wf_schema s
  ∧ ∀ target dialect,
      wf_schema target →
      ∃ ops text, diff_schemas s target = Some ops
                  ∧ render_sql ops dialect = Some text.
Proof.
  intros Hload Hs.
  apply load_schema_Ok_iff in Hload as (_ & _ & Hok).
  pose proof (to_schema_wf raw s Hok Hs) as Hwf. split; [done|].
  intros target dialect Ht.
  destruct (render_sql_is_Some (diff_layout s target) dialect) as [text Htext].
  { intros op Hop. by apply (diff_layout_renderable s target). }
  exists (diff_layout s target), text. by rewrite diff_schemas_wf.
Qed.

Lemma load_schema_establishes_wf_witness :
  wf_schema schema_users
  ∧ ∀ target dialect,
      wf_schema target →
      ∃ ops text, diff_schemas schema_users target = Some ops
                  ∧ render_sql ops dialect = Some text.
Proof.
  apply (load_schema_establishes_wf (λ _, true) (λ _, inr json_users_pk)
           "a.json" json_users_pk schema_users).
  - vm_compute. reflexivity.
  - vm_compute. reflexivity.
Defined.

(** ** Diff engine: an empty diff means equal schemas *)

Section empty_diff.

Lemma wf_cols_of_Some s t :
  wf_schema s → t ∈ dom (tables s) →
  (tables s !! t ≫= columns_of) = Some (cols_of (tables s) t).
Proof.
  intros Hwf [d Hd]%elem_of_dom.
  destruct (wf_schema_columns _ _ _ Hwf Hd) as (cs & Hcs & _).
  unfold cols_of. rewrite Hd. simpl. by rewrite Hcs.
Qed.

Lemma diff_layout_nil source target :
  dom (tables source) = dom (tables target) →
  (∀ t, t ∈ dom (tables source) →
        cols_equal (cols_of (tables source) t) (cols_of (tables target) t)) →
  diff_layout source target = [].
Proof.
  intros Hdom Hcols. unfold diff_layout.
  rewrite Hdom, difference_diag_L, sorted_empty. simpl.
  apply concat_nils. intros t [_ Ht]%elem_of_sorted%elem_of_intersection.
  apply columns_block_equal, Hcols. by rewrite Hdom.
Qed.

End empty_diff.

(** X18. For well-formed schemas the diff is empty exactly when nothing
    changed: the two schemas have the same table names and, table by
    table, the same column names with definitions that compare equal.
    Any difference in tables, columns or definitions yields at least one
    operation. *)
Theorem diff_schemas_empty_iff (A B : Schema) :
  wf_schema A → wf_schema B →
  diff_schemas A B = Some []
  ↔ dom (tables A) = dom (tables B)
    ∧ ∀ t, t ∈ dom (tables A) →
           cols_equal (cols_of (tables A) t) (cols_of (tables B) t).
Proof.
  intros HA HB. split.
  - intros Hdiff.
    assert (∀ op, ¬ op ∈ diff_layout A B) as Hnone.
    { intros op Hop. rewrite (diff_schemas_wf A B HA HB) in Hdiff.
      injection Hdiff as Hnil. rewrite Hnil in Hop. by apply not_elem_of_nil in Hop. }
    assert (dom (tables A) = dom (tables B)) as Hdom.
    { apply set_eq. intros t. split; intros Ht.
      - destruct (decide (t ∈ dom (tables B))) as [|Hn]; [done|].
        destruct (Hnone (drop_table_op t)).
        apply elem_of_diff_layout_iff. right; left. exists t.
        by rewrite elem_of_difference.
      - destruct (decide (t ∈ dom (tables A))) as [|Hn]; [done|].
        destruct (Hnone (create_table_op (tables B) t)).
        apply elem_of_diff_layout_iff. left. exists t.
        by rewrite elem_of_difference. }
    split; [done|]. intros t Ht.
    assert (∀ op, ¬ op ∈ columns_block t (cols_of (tables A) t)
                            (cols_of (tables B) t)) as Hblock.
    { intros op Hop. apply (Hnone op), elem_of_diff_layout_iff.
      right; right. exists t. split; [|done].
      apply elem_of_intersection. split; [done|by rewrite <- Hdom]. }
    set (sc := cols_of (tables A) t) in *. set (tc := cols_of (tables B) t) in *.
    assert (dom sc = dom tc) as Hcd.
    { apply set_eq. intros c. split; intros Hc.
      - destruct (decide (c ∈ dom tc)) as [|Hn]; [done|].
        destruct (Hblock (drop_column_op t c)).
        apply elem_of_columns_block_iff. right; left. exists c.
        by rewrite elem_of_difference.
      - destruct (decide (c ∈ dom sc)) as [|Hn]; [done|].
        destruct (Hblock (add_column_op t tc c)).
        apply elem_of_columns_block_iff. left. exists c.
        by rewrite elem_of_difference. }
    split; [done|]. intros c a Hc. simpl.
    destruct (dict_eqb a (tc !!! c)) eqn:E; [done|].
    destruct (Hblock (alter_column_op t sc tc c)).
    apply elem_of_columns_block_iff. right; right. exists c.
    split; [|split; [|done]].
    + apply elem_of_intersection. split; [apply elem_of_dom; eauto|].
      rewrite <- Hcd. apply elem_of_dom; eauto.
    + unfold changed. by rewrite (lookup_total_correct _ _ _ Hc), E.
  - intros [Hdom Hcols]. rewrite (diff_schemas_wf A B HA HB).
    by rewrite diff_layout_nil.
Qed.

Lemma diff_schemas_empty_iff_witness :
  diff_schemas schema_a schema_a = Some []
  ∧ ¬ (dom (tables schema_a) = dom (tables schema_b)
       ∧ ∀ t, t ∈ dom (tables schema_a) →
              cols_equal (cols_of (tables schema_a) t)
                         (cols_of (tables schema_b) t)).
Proof.
  split.
  - apply (diff_schemas_empty_iff schema_a schema_a); [by_compute..|].
    split; [done|]. intros t _. apply cols_equal_refl.
  - intros H.
    apply (diff_schemas_empty_iff schema_a schema_b) in H; [|by_compute..].
    vm_compute in H. discriminate H.
Defined.

(** ** Emitters: where the two dialects agree *)

Section dialect_agreement.

Lemma column_sql_no_flag name (d : ColDef) :
  flag_set d "autoincrement" = false →
  column_sql name d "sqlite" = column_sql name d "postgres".
Proof.
  unfold flag_set, column_sql, get. intros Hflag.
  destruct (d !! "type") as [ty|]; simpl; [|done].
  destruct (d !! "autoincrement") as [v|]; simpl; [|done]. by rewrite Hflag.
Qed.

Lemma create_table_sql_agree op :
  no_autoincrement op →
  create_table_sql op "sqlite" = create_table_sql op "postgres".
Proof.
  intros [Hcols _]. unfold create_table_sql.
  destruct (payload op !! "columns" ≫= as_cols) as [cs|] eqn:E; simpl; [|done].
  specialize (Hcols cs E).
  rewrite (Forall_mapM_ext _
    (λ name, d ← cs !! name; column_sql name d "postgres")); [done|].
  apply Forall_forall. intros name _.
  destruct (cs !! name) as [d|] eqn:Hd; simpl; [|done].
  apply column_sql_no_flag. by apply (Hcols name d).
Qed.

Lemma add_column_sql_agree op :
  no_autoincrement op →
  add_column_sql op "sqlite" = add_column_sql op "postgres".
Proof.
  intros [_ Hdef]. unfold add_column_sql.
  destruct (payload op !! "column_def") as [[| d |]|] eqn:E; simpl; try done.
  by rewrite column_sql_no_flag by by apply Hdef.
Qed.

End dialect_agreement.

(** X19. Where the dialects agree.  For an operation that carries no
    column definition with [autoincrement] set, the SQLite and the
    Postgres forward statements are the same for [create_table],
    [drop_table] and [add_column], and the rollback statements are the
    same for [create_table] and [drop_table].  The dialects part ways
    only on [AUTOINCREMENT], on dropping and altering columns, and on
    rolling back an added column. *)
Theorem dialects_agree (op : Operation) :
  no_autoincrement op →
  (op_type op = "create_table" ∨ op_type op = "drop_table"
   ∨ op_type op = "add_column" → sqlite_up_sql op = pg_up_sql op)
  ∧ (op_type op = "create_table" ∨ op_type op = "drop_table" →
     sqlite_down_sql op = pg_down_sql op).
Proof.
  intros Hno. unfold sqlite_up_sql, pg_up_sql, sqlite_down_sql, pg_down_sql.
  split.
  - intros [ -> | [ -> | -> ] ]; simpl;
      [by apply create_table_sql_agree|done|by apply add_column_sql_agree].
  - by intros [ -> | -> ].
Qed.

Lemma dialects_agree_witness :
  sqlite_up_sql op_create_posts = pg_up_sql op_create_posts.
Proof.
  apply (dialects_agree op_create_posts).
  - split.
    + intros cs Hcs.
      change (Some ({[ "id" := col_int_pk ]} : gmap string ColDef) = Some cs) in Hcs.
      injection Hcs as <-. by_compute.
    + intros d Hd. change (None = Some (ACol d)) in Hd. discriminate Hd.
  - by left.
Defined.
